(** * Ripple Effect (charity: water): the game logic of [game.js]

    A shallow embedding of the game state of [src/game.js] and of the
    functions that change it: [setupCanvas], [createDrop], [spawnDrop],
    [update], [render] (its in-place sort of the drop list), [loop],
    [handlePointer], [checkMilestones], [checkGameOver], [startTimer],
    [stopTimer], the timer callback, [startRound], [endRound], [resetGame],
    [pauseGame], [resumeGame] and the difficulty buttons' handler.

    Numbers.  A JavaScript number is modelled as an exact rational ([Q]):
    [1.2] is twelve tenths, [+], [-], [*] and [/] are exact, [Math.max] and
    [Math.min] are [Qmax] and [Qmin].  The two counters that only ever hold
    integers, [score] and [lives], are [Z].  Rounding of binary floating
    point, NaN and the infinities are outside the model.

    Environment.  What the browser supplies is an input of the model: the
    clock readings ([performance.now()], the timestamp handed to [loop],
    [Date.now()]), the successive results of [Math.random()], the size of
    the canvas' bounding rectangle, and the function [Math.sin].

    Not part of the game state: drawing, sounds, particles, ripples and the
    DOM (they read the game state and never write it), with one exception:
    [render] sorts the global [drops] array in place, and that sort is
    modelled.  The numbers shown by [resetUI] and [endRound], the rectangle
    of [drawWaterLevel] and the lists of particles and ripples are modelled
    on their own, after the game state. *)

From Stdlib Require Import QArith Qminmax ZArith List String Bool Lia Lqa.
From Stdlib Require Import Qround Permutation.
Import ListNotations.
Local Open Scope Q_scope.

(** ** Numbers *)

(** [a < b] as a test; the source's comparisons are JavaScript's [<] and [>]. *)
Definition Qltb (a b : Q) : bool := negb (Qle_bool b a).

(** [v || d] on a possibly-missing number: [undefined] and [0] are falsy. *)
Definition orDefault (v : option Q) (d : Q) : Q :=
  match v with
  | Some q => if Qeq_bool q 0 then d else q
  | None => d
  end.

(** [Math.abs]. *)
Definition Math_abs (a : Q) : Q := if Qltb a 0 then - a else a.

(** [Math.PI]: the binary64 number, which is this rational exactly. *)
Definition Math_PI : Q := 884279719003555 # 281474976710656.

(** [rand(min,max) = Math.random()*(max-min)+min], [r] the result of the call
    to [Math.random()]. *)
Definition rand (r : Q) (min max : Q) : Q := r * (max - min) + min.

(** ** Data *)

(** An element of [d.trail]. *)
Record TrailPoint : Type := mkTrail { t_x : Q; t_y : Q; t_alpha : Q }.

(** The object [createDrop] returns; field [d_f] is the source's [f]. *)
Record Drop : Type := mkDrop {
  d_x : Q;
  d_y : Q;
  d_size : Q;
  d_speed : Q;
  d_polluted : bool;
  d_vx : Q;
  d_rotation : Q;
  d_rotationSpeed : Q;
  d_birth : Q;
  d_gravity : Q;
  d_drag : Q;
  d_opacity : Q;
  d_trail : list TrailPoint
}.

(** One entry of [difficultySettings]; field [c_f] is the source's [f]. *)
Record Settings : Type := mkSettings {
  c_spawnInterval : Q;
  c_spawnMin : Q;
  c_spawnAccel : Q;
  c_dropSpeed : Q;
  c_roundTime : Q;
  c_lives : Z
}.

(** The object [difficultySettings], in the order it is written. *)
Definition difficultyTable : list (string * Settings) :=
  [ ("easy"%string,   mkSettings 950 520 10 1.3 45 5);
    ("normal"%string, mkSettings 650 340 14 1.7 30 3);
    ("hard"%string,   mkSettings 420 220 18 2.2 20 2) ].

Fixpoint lookup (k : string) (t : list (string * Settings)) : option Settings :=
  match t with
  | [] => None
  | (k', v) :: t' => if String.eqb k k' then Some v else lookup k t'
  end.

(** [difficultySettings[name]]: [None] is [undefined].  (Names inherited from
    [Object.prototype] are not keys of the model.) *)
Definition difficultySettings (name : string) : option Settings :=
  lookup name difficultyTable.

(** The global [const roundTime = 30]. *)
Definition roundTime : Q := 30.

(** [let milestones = [50, 100, 150]]. *)
Definition milestones : list Z := [50; 100; 150]%Z.

(** The script's mutable globals, and the two canvas fields it maintains.
    [timerId] is [true] when the variable holds an interval handle (not
    [null]); [intervals] counts the [setInterval] timers that are live, the
    handle's one and any whose handle was overwritten; [animating] says a
    [requestAnimationFrame(loop)] is pending. *)
Record Game : Type := mkGame {
  running : bool;
  paused : bool;
  drops : list Drop;
  lastSpawn : Q;
  spawnInterval : Q;
  score : Z;
  lives : Z;
  waterPercent : Q;
  timeLeft : Q;
  timerId : bool;
  intervals : nat;
  animating : bool;
  currentDifficulty : string;
  milestonesReached : list Z;
  lastFrame : Q;
  canvas_w : Q;
  canvas_h : Q
}.

(** What one call of [loop] reads from the browser: the timestamp [now]
    passed by [requestAnimationFrame], the value of [Date.now()] (one
    reading serves the whole frame), and the results of the calls of
    [Math.random()] that [update] makes, in order. *)
Record Frame : Type := mkFrame {
  f_now : Q;
  f_date : Q;
  f_random : nat -> Q
}.

(** ** Setters (JavaScript assigns one global at a time) *)

Definition set_drops (v : list Drop) (g : Game) : Game :=
  mkGame (running g) (paused g) v (lastSpawn g) (spawnInterval g) (score g)
    (lives g) (waterPercent g) (timeLeft g) (timerId g) (intervals g)
    (animating g) (currentDifficulty g) (milestonesReached g) (lastFrame g)
    (canvas_w g) (canvas_h g).

Definition set_waterPercent (v : Q) (g : Game) : Game :=
  mkGame (running g) (paused g) (drops g) (lastSpawn g) (spawnInterval g)
    (score g) (lives g) v (timeLeft g) (timerId g) (intervals g)
    (animating g) (currentDifficulty g) (milestonesReached g) (lastFrame g)
    (canvas_w g) (canvas_h g).

Definition set_score (v : Z) (g : Game) : Game :=
  mkGame (running g) (paused g) (drops g) (lastSpawn g) (spawnInterval g) v
    (lives g) (waterPercent g) (timeLeft g) (timerId g) (intervals g)
    (animating g) (currentDifficulty g) (milestonesReached g) (lastFrame g)
    (canvas_w g) (canvas_h g).

Definition set_lives (v : Z) (g : Game) : Game :=
  mkGame (running g) (paused g) (drops g) (lastSpawn g) (spawnInterval g)
    (score g) v (waterPercent g) (timeLeft g) (timerId g) (intervals g)
    (animating g) (currentDifficulty g) (milestonesReached g) (lastFrame g)
    (canvas_w g) (canvas_h g).

Definition set_timeLeft (v : Q) (g : Game) : Game :=
  mkGame (running g) (paused g) (drops g) (lastSpawn g) (spawnInterval g)
    (score g) (lives g) (waterPercent g) v (timerId g) (intervals g)
    (animating g) (currentDifficulty g) (milestonesReached g) (lastFrame g)
    (canvas_w g) (canvas_h g).

Definition set_spawn (last interval : Q) (g : Game) : Game :=
  mkGame (running g) (paused g) (drops g) last interval (score g) (lives g)
    (waterPercent g) (timeLeft g) (timerId g) (intervals g) (animating g)
    (currentDifficulty g) (milestonesReached g) (lastFrame g) (canvas_w g)
    (canvas_h g).

Definition set_flags (r p : bool) (g : Game) : Game :=
  mkGame r p (drops g) (lastSpawn g) (spawnInterval g) (score g) (lives g)
    (waterPercent g) (timeLeft g) (timerId g) (intervals g) (animating g)
    (currentDifficulty g) (milestonesReached g) (lastFrame g) (canvas_w g)
    (canvas_h g).

Definition set_timer (id : bool) (n : nat) (g : Game) : Game :=
  mkGame (running g) (paused g) (drops g) (lastSpawn g) (spawnInterval g)
    (score g) (lives g) (waterPercent g) (timeLeft g) id n (animating g)
    (currentDifficulty g) (milestonesReached g) (lastFrame g) (canvas_w g)
    (canvas_h g).

Definition set_animating (v : bool) (g : Game) : Game :=
  mkGame (running g) (paused g) (drops g) (lastSpawn g) (spawnInterval g)
    (score g) (lives g) (waterPercent g) (timeLeft g) (timerId g)
    (intervals g) v (currentDifficulty g) (milestonesReached g) (lastFrame g)
    (canvas_w g) (canvas_h g).

Definition set_currentDifficulty (v : string) (g : Game) : Game :=
  mkGame (running g) (paused g) (drops g) (lastSpawn g) (spawnInterval g)
    (score g) (lives g) (waterPercent g) (timeLeft g) (timerId g)
    (intervals g) (animating g) v (milestonesReached g) (lastFrame g)
    (canvas_w g) (canvas_h g).

Definition set_milestonesReached (v : list Z) (g : Game) : Game :=
  mkGame (running g) (paused g) (drops g) (lastSpawn g) (spawnInterval g)
    (score g) (lives g) (waterPercent g) (timeLeft g) (timerId g)
    (intervals g) (animating g) (currentDifficulty g) v (lastFrame g)
    (canvas_w g) (canvas_h g).

Definition set_lastFrame (v : Q) (g : Game) : Game :=
  mkGame (running g) (paused g) (drops g) (lastSpawn g) (spawnInterval g)
    (score g) (lives g) (waterPercent g) (timeLeft g) (timerId g)
    (intervals g) (animating g) (currentDifficulty g) (milestonesReached g) v
    (canvas_w g) (canvas_h g).

Definition set_canvas (w h : Q) (g : Game) : Game :=
  mkGame (running g) (paused g) (drops g) (lastSpawn g) (spawnInterval g)
    (score g) (lives g) (waterPercent g) (timeLeft g) (timerId g)
    (intervals g) (animating g) (currentDifficulty g) (milestonesReached g)
    (lastFrame g) w h.

(** ** Canvas *)

(** [setupCanvas], [rw] and [rh] the bounding rectangle's width and height:
    [canvas._w = rect.width || 720; canvas._h = rect.height || 420]. *)
Definition setupCanvas (rw rh : Q) (g : Game) : Game :=
  set_canvas (orDefault (Some rw) 720) (orDefault (Some rh) 420) g.

(** ** Drops *)

(** [createDrop(isPolluted)].  [rnd 0], [rnd 1], ... are the results of its
    calls of [Math.random()], in the order the calls are made: size, x,
    speed, vx, rotation, rotationSpeed and, for a polluted drop, opacity. *)
Definition createDrop (date : Q) (rnd : nat -> Q) (isPolluted : bool)
    (g : Game) : Drop :=
  let settings := difficultySettings (currentDifficulty g) in
  let speedMult := orDefault (option_map c_dropSpeed settings) 1 in
  let size := if isPolluted then rand (rnd 0%nat) 24 35
              else rand (rnd 0%nat) 18 28 in
  let x := rand (rnd 1%nat) (size * 2) (canvas_w g - size * 2) in
  let speed := (if isPolluted then rand (rnd 2%nat) 40 60
                else rand (rnd 2%nat) 30 50) * speedMult in
  mkDrop x (- size * 2) size speed isPolluted
    (rand (rnd 3%nat) (-5) 5)
    (rand (rnd 4%nat) 0 (Math_PI * 2))
    (rand (rnd 5%nat) (-0.03) 0.03)
    date
    ((if isPolluted then 90 else 75) * speedMult)
    0.999
    (if isPolluted then rand (rnd 6%nat) 0.8 1.0 else 1.0)
    [].

(** [spawnDrop]: one call of [Math.random()] of its own, then [createDrop]'s. *)
Definition spawnDrop (date : Q) (rnd : nat -> Q) (g : Game) : Game :=
  let pollutedChance := Qmin 0.28 (0.08 + (30 - timeLeft g) * 0.006) in
  let polluted := Qltb (rnd 0%nat) pollutedChance in
  set_drops (drops g ++ [createDrop date (fun n => rnd (S n)) polluted g]) g.

(** ** Timer *)

(** [endRound], as far as the game state goes: [running = false;
    paused = false; stopTimer(); cancelAnimationFrame(animationId)]. *)
Definition stopTimer (g : Game) : Game :=
  if timerId g then set_timer false (Nat.pred (intervals g)) g
  else set_timer false (intervals g) g.

Definition endRound (g : Game) : Game :=
  set_animating false (stopTimer (set_flags false false g)).

(** The callback [startTimer] hands to [setInterval]:
    [timeLeft -= 1; if(timeLeft <= 0){ timeLeft = 0; endRound(); }]. *)
Definition timerTick (g : Game) : Game :=
  let g1 := set_timeLeft (timeLeft g - 1) g in
  if Qle_bool (timeLeft g1) 0 then endRound (set_timeLeft 0 g1) else g1.

(** [startTimer]: [timeLeft = roundTime] (the global constant), and a new
    interval whose handle replaces [timerId] (the old one is not cleared). *)
Definition startTimer (g : Game) : Game :=
  set_timer true (S (intervals g)) (set_timeLeft roundTime g).

(** ** Pointer *)

(** The hit test of [handlePointer],
    [Math.sqrt(dx*dx + dy*dy) < d.size*1.8], without the square root: a
    square root is never negative, so the test holds exactly when
    [d.size*1.8] is positive and [dx*dx + dy*dy] is below its square. *)
Definition hit (px py : Q) (d : Drop) : bool :=
  let dx := d_x d - px in
  let dy := d_y d - py in
  Qltb 0 (d_size d * 1.8)
  && Qltb (dx * dx + dy * dy) ((d_size d * 1.8) * (d_size d * 1.8)).

(** The loop [for(let i=drops.length-1;i>=0;i--)] of [handlePointer], up to
    its [return]: [scan px py ds i] looks at the indices [i-1], ..., [0] in
    that order and yields the first whose drop passes the hit test. *)
Fixpoint scan (px py : Q) (ds : list Drop) (i : nat) : option nat :=
  match i with
  | O => None
  | S j =>
      match nth_error ds j with
      | Some d => if hit px py d then Some j else scan px py ds j
      | None => scan px py ds j
      end
  end.

(** [drops.splice(i,1)]. *)
Definition splice1 {A : Type} (i : nat) (l : list A) : list A :=
  firstn i l ++ skipn (S i) l.

(** [checkMilestones]: [milestones.forEach], pushing each milestone the score
    has reached and that is not in [milestonesReached] yet. *)
Definition checkMilestones (g : Game) : Game :=
  fold_left
    (fun acc m =>
       if (m <=? score acc)%Z
          && negb (existsb (Z.eqb m) (milestonesReached acc))
       then set_milestonesReached (milestonesReached acc ++ [m]) acc
       else acc)
    milestones g.

(** [checkGameOver]. *)
Definition checkGameOver (g : Game) : Game :=
  if (lives g <=? 0)%Z || Qle_bool 100 (waterPercent g) then endRound g
  else g.

(** The body of the [if(dist < d.size*1.8)] branch, for the drop [d] found at
    index [i]. *)
Definition hitDrop (i : nat) (d : Drop) (g : Game) : Game :=
  let g1 :=
    if d_polluted d then
      set_waterPercent (Qmax 0 (waterPercent g - 10))
        (set_lives (Z.max 0 (lives g - 1)) g)
    else
      checkMilestones
        (set_waterPercent (Qmin 100 (waterPercent g + 6))
           (set_score (score g + 10) g)) in
  checkGameOver (set_drops (splice1 i (drops g1)) g1).

(** [handlePointer(evt)], [px] and [py] the event's position in canvas
    coordinates (the source's [x] and [y]). *)
Definition handlePointer (px py : Q) (g : Game) : Game :=
  if negb (running g) then g
  else
    match scan px py (drops g) (List.length (drops g)) with
    | Some i =>
        match nth_error (drops g) i with
        | Some d => hitDrop i d g
        | None => g
        end
    | None => g
    end.

(** ** Round control *)

(** [startRound], [rw] and [rh] the canvas rectangle and [perf] the value of
    [performance.now()].  With a [currentDifficulty] that is no key of
    [difficultySettings], reading [settings.spawnInterval] throws before
    anything is assigned and the [catch] touches buttons only. *)
Definition startRound (rw rh perf : Q) (g : Game) : Game :=
  match difficultySettings (currentDifficulty g) with
  | None => g
  | Some settings =>
      let g1 := set_spawn (lastSpawn g) (c_spawnInterval settings) g in
      let g2 := set_lives (c_lives settings) g1 in
      let g3 := set_timeLeft (c_roundTime settings) g2 in
      let g4 := set_milestonesReached [] g3 in
      let g5 := set_drops [] g4 in
      let g6 := set_spawn 0 (spawnInterval g5) g5 in
      let g7 := set_flags true false g6 in
      let g8 := set_waterPercent 0 (set_score 0 g7) in
      let g9 := setupCanvas rw rh g8 in
      let g10 := startTimer g9 in
      set_animating true (set_lastFrame perf g10)
  end.

(** [resetGame]. *)
Definition resetGame (rw rh : Q) (g : Game) : Game :=
  let g1 := stopTimer (set_flags false false g) in
  let g2 := set_drops [] g1 in
  let g3 := set_lives 3 (set_score 0 g2) in
  let g4 := set_timeLeft roundTime (set_waterPercent 0 g3) in
  setupCanvas rw rh (set_animating false g4).

(** [pauseGame]. *)
Definition pauseGame (g : Game) : Game :=
  if paused g || negb (running g) then g
  else stopTimer (set_flags (running g) true g).

(** [resumeGame], [perf] the value of [performance.now()]. *)
Definition resumeGame (perf : Q) (g : Game) : Game :=
  if negb (paused g) then g
  else set_lastFrame perf (startTimer (set_flags (running g) false g)).

(** The click handler of a [.btn-difficulty] button whose
    [dataset.difficulty] is [name].  Outside a round it also reads
    [settings.lives]; with an unknown name that read throws, after
    [currentDifficulty] was assigned. *)
Definition selectDifficulty (name : string) (g : Game) : Game :=
  let g1 := set_currentDifficulty name g in
  if negb (running g1) then
    match difficultySettings name with
    | Some settings => set_lives (c_lives settings) g1
    | None => g1
    end
  else g1.

(** ** Frames *)

(** [render], as far as the globals of [Game] go:
    [drops.sort((a,b)=> a.y - b.y)], a stable sort by ascending [y], here an
    insertion sort.  (The drawing calls around it are taken not to throw.)
    The source's [render] also calls [drawParticleEffects()] and
    [drawRipples(now)] while a round is running and not paused; they act on
    the globals [particles] and [ripples], which are no part of [Game], and
    are left out here.  [renderPage], further down, is [render] with them. *)
Fixpoint insertByY (d : Drop) (l : list Drop) : list Drop :=
  match l with
  | [] => [d]
  | e :: l' => if Qle_bool (d_y d) (d_y e) then d :: l
               else e :: insertByY d l'
  end.

Fixpoint sortByY (l : list Drop) : list Drop :=
  match l with
  | [] => []
  | d :: l' => insertByY d (sortByY l')
  end.

Definition render (g : Game) : Game := set_drops (sortByY (drops g)) g.

Section Frames.

(** [Math.sin], as the browser computes it. *)
Variable Math_sin : Q -> Q.

(** The loop over [d.trail] in [update], from its last element to its first:
    [d.trail[j].alpha *= 0.9; if(d.trail[j].alpha < 0.1) d.trail.splice(j, 1)]. *)
Fixpoint fadeTrail (l : list TrailPoint) : list TrailPoint :=
  match l with
  | [] => []
  | p :: l' =>
      let rest := fadeTrail l' in
      let a := t_alpha p * 0.9 in
      if Qltb a 0.1 then rest else mkTrail (t_x p) (t_y p) a :: rest
  end.

(** The body of [update]'s loop over the drops, up to and including the wind:
    the drop [d] after its motion, [date] the value of [Date.now()]. *)
Definition moveDrop (dt date : Q) (d : Drop) : Drop :=
  let speed := (d_speed d + d_gravity d * dt) * d_drag d in
  let vx := d_vx d * 0.996 in
  let y := d_y d + speed * dt in
  let x := d_x d + vx * dt in
  let rotation := d_rotation d + d_rotationSpeed d in
  let trail :=
    if negb (d_polluted d) && (List.length (d_trail d) <? 3)%nat
    then d_trail d ++ [mkTrail x y 0.5] else d_trail d in
  let wind := Math_sin (date * 0.001 + x * 0.01) * 5 in
  mkDrop x y (d_size d) speed (d_polluted d) (vx + wind * dt) rotation
    (d_rotationSpeed d) (d_birth d) (d_gravity d) (d_drag d) (d_opacity d)
    (fadeTrail trail).

(** [d.y - d.size > canvas._h + 60]: the drop is past the bottom. *)
Definition fellOff (h : Q) (d : Drop) : bool :=
  Qltb (h + 60) (d_y d - d_size d).

(** The two tests that end the loop body: the drop is put back inside the
    canvas, left side first. *)
Definition bounce (w : Q) (d : Drop) : Drop :=
  let d1 :=
    if Qltb (d_x d - d_size d) 0 then
      mkDrop (d_size d) (d_y d) (d_size d) (d_speed d) (d_polluted d)
        (Math_abs (d_vx d) * 0.7) (d_rotation d) (d_rotationSpeed d)
        (d_birth d) (d_gravity d) (d_drag d) (d_opacity d) (d_trail d)
    else d in
  if Qltb w (d_x d1 + d_size d1) then
    mkDrop (w - d_size d1) (d_y d1) (d_size d1) (d_speed d1) (d_polluted d1)
      (- Math_abs (d_vx d1) * 0.7) (d_rotation d1) (d_rotationSpeed d1)
      (d_birth d1) (d_gravity d1) (d_drag d1) (d_opacity d1) (d_trail d1)
  else d1.

(** The loop [for(let i=drops.length-1;i>=0;i--)] of [update]: the drops of
    the higher indices are handled first, so the recursive call on the tail
    comes before the head's turn.  It yields the drops left and the water
    meter. *)
Fixpoint updateDrops (dt date w h : Q) (ds : list Drop) (water : Q)
    : list Drop * Q :=
  match ds with
  | [] => ([], water)
  | d :: rest =>
      let '(rest', water1) := updateDrops dt date w h rest water in
      let d1 := moveDrop dt date d in
      if fellOff h d1 then
        (rest', if negb (d_polluted d1) then Qmax 0 (water1 - 1.2)
                else water1)
      else (bounce w d1 :: rest', water1)
  end.

(** The first statement of [update]: a spawn when the interval has passed,
    and the new [spawnInterval]. *)
Definition spawnStep (f : Frame) (g : Game) : Game :=
  if Qltb (spawnInterval g) (f_date f - lastSpawn g) then
    let g1 := spawnDrop (f_date f) (f_random f) g in
    let s := difficultySettings (currentDifficulty g1) in
    let base := orDefault (option_map c_spawnInterval s) 700 in
    let minI := orDefault (option_map c_spawnMin s) 300 in
    let accel := orDefault (option_map c_spawnAccel s) 12 in
    let elapsed := orDefault (option_map c_roundTime s) 30 - timeLeft g1 in
    set_spawn (f_date f) (Qmax minI (base - elapsed * accel)) g1
  else g.

(** [update(dt)]. *)
Definition update (dt : Q) (f : Frame) (g : Game) : Game :=
  let g1 := spawnStep f g in
  let r :=
    updateDrops dt (f_date f) (canvas_w g1) (canvas_h g1) (drops g1)
      (waterPercent g1) in
  set_waterPercent (snd r) (set_drops (fst r) g1).

(** [loop(now)]. *)
Definition loop (f : Frame) (g : Game) : Game :=
  let dt := Qmin 0.05 ((f_now f - lastFrame g) / 1000) in
  let g1 := set_lastFrame (f_now f) g in
  let g2 := if negb (paused g1) then update dt f g1 else g1 in
  set_animating true (render g2).

(** ** Events *)

(** What can happen to the page.  A frame is delivered only while one is
    requested, a timer callback only while an interval is live. *)
Inductive Event : Type :=
| EStartRound (rw rh perf : Q)
| EFrame (f : Frame)
| ETimer
| EPointer (px py : Q)
| EPause
| EResume (perf : Q)
| EReset (rw rh : Q)
| EDifficulty (name : string)
| EResize (rw rh : Q).

Definition step (g : Game) (e : Event) : Game :=
  match e with
  | EStartRound rw rh perf => startRound rw rh perf g
  | EFrame f => if animating g then loop f g else g
  | ETimer => match intervals g with O => g | S _ => timerTick g end
  | EPointer px py => handlePointer px py g
  | EPause => pauseGame g
  | EResume perf => resumeGame perf g
  | EReset rw rh => resetGame rw rh g
  | EDifficulty name => selectDifficulty name g
  | EResize rw rh => setupCanvas rw rh g
  end.

(** The globals as the script initialises them, after its first
    [setupCanvas()]. *)
Definition initial (rw rh perf : Q) : Game :=
  setupCanvas rw rh
    (mkGame false false [] 0 700 0 3 0 roundTime false 0 false
       "normal"%string [] perf 0 0).

Definition run (evs : list Event) (g : Game) : Game := fold_left step evs g.

End Frames.

(** ** Derived notions *)

(** The water meter is a percentage. *)
Definition inRange (w : Q) : Prop := 0 <= w /\ w <= 100.

(** What a clean drop that falls off the canvas costs:
    [Math.max(0, waterPercent - 1.2)]. *)
Definition miss (w : Q) : Q := Qmax 0 (w - 1.2).

(** The drop list is in ascending order of [y]: every drop is at most as low
    on the canvas as the drops after it. *)
Fixpoint sortedByY (l : list Drop) : Prop :=
  match l with
  | [] => True
  | d :: l' => (forall e, In e l' -> d_y d <= d_y e) /\ sortedByY l'
  end.

(** ** Sample inputs *)

(** A stand-in for [Math.sin] where a lemma needs some function: no wind. *)
Definition noWind (_ : Q) : Q := 0.

(** A frame whose calls of [Math.random()] all return [r]. *)
Definition frameAt (now date r : Q) : Frame := mkFrame now date (fun _ => r).

(** A drop at rest at [(x, y)], born at [birth]. *)
Definition dropAt (x y size : Q) (polluted : bool) (birth : Q) : Drop :=
  mkDrop x y size 50 polluted 0 0 0 birth 75 0.999 1 [].

(** A round on [normal] under way on a 720 by 420 canvas, 20 seconds left,
    the last spawn at [Date.now() = 5000]. *)
Definition midRound (ds : list Drop) (sc lv : Z) (water : Q) : Game :=
  mkGame true false ds 5000 650 sc lv water 20 true 1 true "normal"%string
    [] 0 720 420.

(** A session: [hard] is chosen and a round started; for twenty seconds a
    frame and a timer callback alternate, each frame spawning a drop; one
    more frame spawns with 10 seconds left; [easy] is chosen while the round
    runs; a last frame follows 16 ms later, too soon for a spawn. *)
Definition secondOfPlay (k : nat) : list Event :=
  [EFrame (frameAt (1016 + 1000 * inject_Z (Z.of_nat k))
             (1700000000000 + 1000 * inject_Z (Z.of_nat k)) 0.5);
   ETimer].

Definition switchSession : list Event :=
  [EDifficulty "hard"%string; EStartRound 720 420 1000]
  ++ flat_map secondOfPlay (seq 0 20)
  ++ [EFrame (frameAt 21016 1700000020000 0.5);
      EDifficulty "easy"%string;
      EFrame (frameAt 21032 1700000020016 0.5)].

(** Two clean drops that overlap: [olderDrop] was created first and is
    lower on the canvas. *)
Definition olderDrop : Drop := dropAt 100 100 30 false 1000.
Definition newerDrop : Drop := dropAt 100 90 30 false 2000.

(** ** Texts, results and effects *)

(** What follows models the numbers [resetUI] and [endRound] show, the
    geometry of [drawWaterLevel], the pause button, and the two lists of
    effects, [particles] and [ripples].  The lists are kept apart from
    [Game]: the game logic never reads them. *)

(** [Math.round]: the nearest integer, halves upwards.  [Math.ceil]. *)
Definition Math_round (q : Q) : Z := Qfloor (q + 0.5).
Definition Math_ceil (q : Q) : Z := Qceiling q.

(** [resetUI]: the numbers it writes, [scoreEl.textContent],
    [livesEl.textContent], the percentage of [barFill.style.width] and the
    seconds of [timerEl.textContent]. *)
Record Display : Type := mkDisplay {
  ui_score : Z;
  ui_lives : Z;
  ui_barPercent : Z;
  ui_timer : Z
}.

Definition resetUI (g : Game) : Display :=
  mkDisplay (score g) (lives g) (Math_round (waterPercent g))
    (Z.max 0 (Math_ceil (timeLeft g))).

(** What [endRound] shows of the round that ends in state [g]:
    [coins = Math.max(0, Math.floor(score / 50))] and the text of
    [resultsTitle]. *)
Definition coins (g : Game) : Z := Z.max 0 (score g / 50).

Definition resultsTitle (g : Game) : string :=
  if Qle_bool 100 (waterPercent g) then "Well Built!"%string
  else "Round Complete"%string.

(** A rectangle of the canvas: left, top, width, height. *)
Record Rect : Type := mkRect { r_x : Q; r_y : Q; r_w : Q; r_h : Q }.

(** The jerry can of [drawJerryCan] and [drawWaterLevel]: [canW = 140],
    [canH = 80], [canX = canvas._w/2 - canW/2], [canY = canvas._h - canH - 12]. *)
Definition canW : Q := 140.
Definition canH : Q := 80.
Definition canX (g : Game) : Q := canvas_w g / 2 - canW / 2.
Definition canY (g : Game) : Q := canvas_h g - canH - 12.

(** The rectangle [drawWaterLevel] clips to,
    [(canX + 5, canY + 5, canW - 10, canH - 10)]. *)
Definition waterClip (g : Game) : Rect :=
  mkRect (canX g + 5) (canY g + 5) (canW - 10) (canH - 10).

(** [drawWaterLevel]: the rectangle it fills,
    [fillRect(canX + 5, waterY, canW - 10, waterH)], or [None] when it
    returns at once ([waterPercent <= 0]). *)
Definition drawWaterLevel (g : Game) : option Rect :=
  if Qle_bool (waterPercent g) 0 then None
  else
    let waterH := (canH - 10) * (waterPercent g / 100) in
    let waterY := canY g + canH - 5 - waterH in
    Some (mkRect (canX g + 5) waterY (canW - 10) waterH).

(** The handler of the pause button and of the [p] key:
    [if(!running && !paused) return; if(paused) resumeGame(); else pauseGame();]. *)
Definition togglePause (perf : Q) (g : Game) : Game :=
  if negb (running g) && negb (paused g) then g
  else if paused g then resumeGame perf g else pauseGame g.

(** An element of [particles]; [p_positive] stands for the colour. *)
Record Particle : Type := mkParticle {
  p_x : Q;
  p_y : Q;
  p_vx : Q;
  p_vy : Q;
  p_life : Q;
  p_maxLife : Q;
  p_size : Q;
  p_positive : bool
}.

(** The particle [addParticle(x, y, type)] pushes, [r1], [r2], [r3] the
    results of its calls of [Math.random()]. *)
Definition newParticle (x y : Q) (positive : bool) (r1 r2 r3 : Q) : Particle :=
  mkParticle x y ((r1 - 0.5) * 60) (- r2 * 80 - 20) 1.0 1.0 (r3 * 3 + 2)
    positive.

(** One turn of the loop of [drawParticleEffects] on a particle: its motion,
    and [None] when it is spliced out ([p.life <= 0]). *)
Definition ageParticle (p : Particle) : option Particle :=
  let p' :=
    mkParticle (p_x p + p_vx p * 0.016) (p_y p + p_vy p * 0.016) (p_vx p)
      (p_vy p + 200 * 0.016) (p_life p - 0.016) (p_maxLife p) (p_size p)
      (p_positive p) in
  if Qle_bool (p_life p') 0 then None else Some p'.

(** [drawParticleEffects], as far as [particles] goes. *)
Fixpoint drawParticleEffects (ps : list Particle) : list Particle :=
  match ps with
  | [] => []
  | p :: rest =>
      let rest' := drawParticleEffects rest in
      match ageParticle p with
      | Some p' => p' :: rest'
      | None => rest'
      end
  end.

(** The opacity and the radius a particle is drawn with:
    [alpha = p.life / p.maxLife], [p.size * alpha]. *)
Definition particleAlpha (p : Particle) : Q := p_life p / p_maxLife p.
Definition particleRadius (p : Particle) : Q := p_size p * particleAlpha p.

(** An element of [ripples]. *)
Record Ripple : Type := mkRipple {
  rp_x : Q;
  rp_y : Q;
  rp_radius : Q;
  rp_maxRadius : Q;
  rp_alpha : Q;
  rp_delay : Q;
  rp_startedAt : Q
}.

(** [popEffect(x, y)]: the three ripples it pushes, [perf] the value of
    [performance.now()]. *)
Definition popEffect (x y perf : Q) : list Ripple :=
  map (fun i : Z =>
         mkRipple x y 0 (28 + inject_Z i * 10) 1 (inject_Z i * 0.06) perf)
    [0; 1; 2]%Z.

(** One turn of the loop of [drawRipples(now)] on a ripple: unchanged while
    its delay has not passed, [None] when it is spliced out. *)
Definition ageRipple (now : Q) (r : Ripple) : option Ripple :=
  let t := (now - rp_startedAt r) / 1000 - rp_delay r in
  if Qltb t 0 then Some r
  else
    let radius := Qmin (rp_maxRadius r) (t * 120) in
    let alpha := 1 - radius / rp_maxRadius r in
    if Qle_bool alpha 0 then None
    else Some (mkRipple (rp_x r) (rp_y r) radius (rp_maxRadius r) alpha
                 (rp_delay r) (rp_startedAt r)).

(** [drawRipples(now)], as far as [ripples] goes. *)
Fixpoint drawRipples (now : Q) (rs : list Ripple) : list Ripple :=
  match rs with
  | [] => []
  | r :: rest =>
      let rest' := drawRipples now rest in
      match ageRipple now r with
      | Some r' => r' :: rest'
      | None => rest'
      end
  end.

(** ** The page: the game with its effects *)

(** The globals of [Game] together with the two lists of effects. *)
Record Page : Type := mkPage {
  game : Game;
  particles : list Particle;
  ripples : list Ripple
}.

(** [render(now)] with all it changes: the sort of [drops], then
    [if(running && !paused) drawParticleEffects()] and
    [if(running && !paused ...) drawRipples(now || performance.now())],
    [perf] the value of [performance.now()]. *)
Definition renderPage (now perf : Q) (p : Page) : Page :=
  let g := render (game p) in
  let live := running g && negb (paused g) in
  mkPage g
    (if live then drawParticleEffects (particles p) else particles p)
    (if live then drawRipples (orDefault (Some now) perf) (ripples p)
     else ripples p).

(** [startRound] on the page: it assigns neither [particles] nor [ripples]. *)
Definition startRoundPage (rw rh perf : Q) (p : Page) : Page :=
  mkPage (startRound rw rh perf (game p)) (particles p) (ripples p).

(** ** The calls of [resetUI] *)

(** The state in which [startRound] calls [resetUI]: after
    [waterPercent = 0], before [setupCanvas()] and [startTimer()].  [None]
    when reading [settings.spawnInterval] throws. *)
Definition startRoundAtResetUI (g : Game) : option Game :=
  match difficultySettings (currentDifficulty g) with
  | None => None
  | Some settings =>
      let g1 := set_spawn (lastSpawn g) (c_spawnInterval settings) g in
      let g2 := set_lives (c_lives settings) g1 in
      let g3 := set_timeLeft (c_roundTime settings) g2 in
      let g4 := set_milestonesReached [] g3 in
      let g5 := set_drops [] g4 in
      let g6 := set_spawn 0 (spawnInterval g5) g5 in
      let g7 := set_flags true false g6 in
      Some (set_waterPercent 0 (set_score 0 g7))
  end.

(** The state in which [handlePointer] calls [resetUI] after a hit on the
    drop [d] at index [i]: after [drops.splice(i,1)], before
    [checkGameOver()]. *)
Definition hitDropAtResetUI (i : nat) (d : Drop) (g : Game) : Game :=
  let g1 :=
    if d_polluted d then
      set_waterPercent (Qmax 0 (waterPercent g - 10))
        (set_lives (Z.max 0 (lives g - 1)) g)
    else
      checkMilestones
        (set_waterPercent (Qmin 100 (waterPercent g + 6))
           (set_score (score g + 10) g)) in
  set_drops (splice1 i (drops g1)) g1.

(** The state in which [resetGame] calls [resetUI]: after
    [timeLeft = roundTime], before [cancelAnimationFrame] and
    [setupCanvas()]. *)
Definition resetGameAtResetUI (g : Game) : Game :=
  let g1 := stopTimer (set_flags false false g) in
  let g2 := set_drops [] g1 in
  let g3 := set_lives 3 (set_score 0 g2) in
  set_timeLeft roundTime (set_waterPercent 0 g3).

(** What [resetUI] writes while the event [e] is handled in state [g], one
    [Display] per call: [startRound], the timer callback (at its end),
    [handlePointer] (on a hit), [resetGame] and the difficulty buttons
    (outside a round, with a known name) call it once; a frame, pause,
    resume and a resize do not call it. *)
Definition resetUICalls (g : Game) (e : Event) : list Display :=
  match e with
  | EStartRound _ _ _ =>
      match startRoundAtResetUI g with
      | Some m => [resetUI m]
      | None => []
      end
  | ETimer =>
      match intervals g with
      | O => []
      | S _ => [resetUI (timerTick g)]
      end
  | EPointer px py =>
      if negb (running g) then []
      else
        match scan px py (drops g) (List.length (drops g)) with
        | Some i =>
            match nth_error (drops g) i with
            | Some d => [resetUI (hitDropAtResetUI i d g)]
            | None => []
            end
        | None => []
        end
  | EReset _ _ => [resetUI (resetGameAtResetUI g)]
  | EDifficulty name =>
      if negb (running g) then
        match difficultySettings name with
        | Some _ => [resetUI (selectDifficulty name g)]
        | None => []
        end
      else []
  | EFrame _ | EPause | EResume _ | EResize _ _ => []
  end.

(** ** What holds in every state the game reaches *)

(** The intervals that are live without a handle: [startTimer] overwrote
    their handle. *)
Definition leakedIntervals (g : Game) : nat :=
  (intervals g - (if timerId g then 1 else 0))%nat.

(** The milestones the score has reached. *)
Definition reachedBy (sc : Z) (m : Z) : Prop := In m milestones /\ (m <= sc)%Z.

Record Invariant (g : Game) : Prop := mkInvariant {
  inv_paused : paused g = true -> running g = true;
  inv_timerId : timerId g = running g && negb (paused g);
  inv_animating : animating g = running g;
  inv_alive : running g = true -> (1 <= lives g)%Z /\ waterPercent g < 100;
  inv_lives : (0 <= lives g <= 5)%Z;
  inv_score : exists k, (0 <= k)%Z /\ score g = (10 * k)%Z;
  inv_time : exists n, (0 <= n <= 30)%Z /\ timeLeft g == inject_Z n;
  inv_handle : timerId g = true -> (1 <= intervals g)%nat;
  inv_water : inRange (waterPercent g);
  inv_sorted : sortedByY (drops g);
  inv_nodup : NoDup (milestonesReached g);
  inv_reached : running g = true ->
                forall m, In m (milestonesReached g) <-> reachedBy (score g) m
}.

(** * Properties *)

(** ** Comparisons *)

Lemma Qltb_lt (a b : Q) : Qltb a b = true <-> a < b.
Proof.
  unfold Qltb. rewrite negb_true_iff. split; intro H.
  - apply Qnot_le_lt. intro L. apply Qle_bool_iff in L. congruence.
  - destruct (Qle_bool b a) eqn:E; trivial.
    apply Qle_bool_iff in E. exfalso. exact (Qlt_not_le _ _ H E).
Qed.

Lemma Qltb_ge (a b : Q) : Qltb a b = false <-> b <= a.
Proof.
  unfold Qltb. rewrite negb_false_iff. apply Qle_bool_iff.
Qed.

Lemma Qle_bool_false (a b : Q) : Qle_bool a b = false <-> b < a.
Proof.
  rewrite <- Qltb_lt. unfold Qltb. now rewrite negb_true_iff.
Qed.

Lemma inRange_gain (w : Q) : inRange w -> inRange (Qmin 100 (w + 6)).
Proof.
  intros [H0 H1]. split.
  - apply Q.min_glb; lra.
  - apply Q.le_min_l.
Qed.

Lemma inRange_loss (w k : Q) : 0 <= k -> inRange w -> inRange (Qmax 0 (w - k)).
Proof.
  intros Hk [H0 H1]. split.
  - apply Q.le_max_l.
  - apply Q.max_lub; lra.
Qed.

Lemma inRange_zero : inRange 0.
Proof. split; lra. Qed.

(** ** What each function leaves alone *)

Lemma stopTimer_fields (g : Game) :
  waterPercent (stopTimer g) = waterPercent g
  /\ drops (stopTimer g) = drops g
  /\ score (stopTimer g) = score g
  /\ lives (stopTimer g) = lives g
  /\ timeLeft (stopTimer g) = timeLeft g
  /\ running (stopTimer g) = running g.
Proof. unfold stopTimer. destruct (timerId g); repeat split. Qed.

Lemma endRound_fields (g : Game) :
  waterPercent (endRound g) = waterPercent g
  /\ drops (endRound g) = drops g
  /\ score (endRound g) = score g
  /\ lives (endRound g) = lives g
  /\ timeLeft (endRound g) = timeLeft g
  /\ running (endRound g) = false.
Proof.
  unfold endRound, stopTimer.
  destruct (timerId (set_flags false false g)); repeat split.
Qed.

Lemma checkGameOver_fields (g : Game) :
  waterPercent (checkGameOver g) = waterPercent g
  /\ drops (checkGameOver g) = drops g
  /\ score (checkGameOver g) = score g
  /\ lives (checkGameOver g) = lives g
  /\ timeLeft (checkGameOver g) = timeLeft g.
Proof.
  unfold checkGameOver.
  destruct ((lives g <=? 0)%Z || Qle_bool 100 (waterPercent g)).
  - destruct (endRound_fields g) as (?&?&?&?&?&?). repeat split; assumption.
  - repeat split.
Qed.

Lemma checkMilestones_fold_fields (ms : list Z) (g : Game) :
  let g' :=
    fold_left
      (fun acc m =>
         if (m <=? score acc)%Z
            && negb (existsb (Z.eqb m) (milestonesReached acc))
         then set_milestonesReached (milestonesReached acc ++ [m]) acc
         else acc) ms g in
  waterPercent g' = waterPercent g /\ drops g' = drops g
  /\ score g' = score g /\ lives g' = lives g /\ timeLeft g' = timeLeft g
  /\ running g' = running g /\ paused g' = paused g
  /\ timerId g' = timerId g /\ intervals g' = intervals g
  /\ animating g' = animating g.
Proof.
  revert g. induction ms as [|m ms IH]; intro g; simpl.
  - repeat split.
  - match goal with |- context [fold_left _ ms ?x] => specialize (IH x) end.
    simpl in IH.
    destruct ((m <=? score g)%Z
              && negb (existsb (Z.eqb m) (milestonesReached g))); exact IH.
Qed.

Lemma checkMilestones_fields (g : Game) :
  waterPercent (checkMilestones g) = waterPercent g
  /\ drops (checkMilestones g) = drops g
  /\ score (checkMilestones g) = score g
  /\ lives (checkMilestones g) = lives g
  /\ timeLeft (checkMilestones g) = timeLeft g
  /\ running (checkMilestones g) = running g
  /\ paused (checkMilestones g) = paused g
  /\ timerId (checkMilestones g) = timerId g
  /\ intervals (checkMilestones g) = intervals g
  /\ animating (checkMilestones g) = animating g.
Proof. exact (checkMilestones_fold_fields milestones g). Qed.

(** ** The effect of a hit *)

Lemma hitDrop_clean (i : nat) (d : Drop) (g : Game) :
  d_polluted d = false ->
  waterPercent (hitDrop i d g) = Qmin 100 (waterPercent g + 6)
  /\ score (hitDrop i d g) = (score g + 10)%Z
  /\ lives (hitDrop i d g) = lives g
  /\ drops (hitDrop i d g) = splice1 i (drops g).
Proof.
  intro Hd. unfold hitDrop. rewrite Hd.
  set (g1 := checkMilestones _).
  destruct (checkMilestones_fields
              (set_waterPercent (Qmin 100 (waterPercent g + 6))
                 (set_score (score g + 10) g))) as (Hw & Hdr & Hs & Hl & _).
  fold g1 in Hw, Hdr, Hs, Hl. simpl in Hw, Hdr, Hs, Hl.
  destruct (checkGameOver_fields (set_drops (splice1 i (drops g1)) g1))
    as (Hw' & Hdr' & Hs' & Hl' & _).
  rewrite Hw', Hdr', Hs', Hl'. simpl. rewrite Hw, Hdr, Hs, Hl.
  repeat split.
Qed.

Lemma hitDrop_polluted (i : nat) (d : Drop) (g : Game) :
  d_polluted d = true ->
  waterPercent (hitDrop i d g) = Qmax 0 (waterPercent g - 10)
  /\ score (hitDrop i d g) = score g
  /\ lives (hitDrop i d g) = Z.max 0 (lives g - 1)
  /\ drops (hitDrop i d g) = splice1 i (drops g).
Proof.
  intro Hd. unfold hitDrop. rewrite Hd.
  match goal with |- context [checkGameOver ?x] =>
    destruct (checkGameOver_fields x) as (Hw' & Hdr' & Hs' & Hl' & _) end.
  rewrite Hw', Hdr', Hs', Hl'. simpl. repeat split.
Qed.

(** ** The scan of [handlePointer] *)

Lemma scan_some (px py : Q) (ds : list Drop) (i j : nat) :
  scan px py ds i = Some j ->
  (j < i)%nat
  /\ exists d, nth_error ds j = Some d /\ hit px py d = true
     /\ forall k d', (j < k < i)%nat -> nth_error ds k = Some d' ->
                     hit px py d' = false.
Proof.
  induction i as [|i IH]; simpl; intro H; [discriminate|].
  destruct (nth_error ds i) as [d|] eqn:E.
  - destruct (hit px py d) eqn:Hh.
    + inversion H; subst j. split; [lia|].
      exists d. repeat split; trivial. intros k d' Hk. lia.
    + destruct (IH H) as (Hlt & d0 & Hn & Hh0 & Habove).
      split; [lia|]. exists d0. repeat split; trivial.
      intros k d' Hk Hk'.
      destruct (Nat.eq_dec k i) as [->|Hne].
      * congruence.
      * apply (Habove k d'); [lia|assumption].
  - destruct (IH H) as (Hlt & d0 & Hn & Hh0 & Habove).
    split; [lia|]. exists d0. repeat split; trivial.
    intros k d' Hk Hk'.
    destruct (Nat.eq_dec k i) as [->|Hne].
    + congruence.
    + apply (Habove k d'); [lia|assumption].
Qed.

Lemma scan_none (px py : Q) (ds : list Drop) (i : nat) :
  scan px py ds i = None ->
  forall k d, (k < i)%nat -> nth_error ds k = Some d -> hit px py d = false.
Proof.
  induction i as [|i IH]; simpl; intros H k d Hk Hn; [lia|].
  destruct (nth_error ds i) as [d0|] eqn:E.
  - destruct (hit px py d0) eqn:Hh; [discriminate|].
    destruct (Nat.eq_dec k i) as [->|Hne]; [congruence|].
    apply (IH H k d); [lia|assumption].
  - destruct (Nat.eq_dec k i) as [->|Hne]; [congruence|].
    apply (IH H k d); [lia|assumption].
Qed.

Lemma splice1_length {A : Type} (i : nat) (l : list A) :
  (i < List.length l)%nat ->
  (List.length (splice1 i l) + 1 = List.length l)%nat.
Proof.
  intro H. unfold splice1.
  rewrite length_app, length_firstn, length_skipn. lia.
Qed.

(** A tap on a running game either finds no drop and changes nothing, or
    runs [hitDrop] on the drop of the highest index that passes the test. *)
Lemma handlePointer_cases (px py : Q) (g : Game) :
  running g = true ->
  (scan px py (drops g) (List.length (drops g)) = None
   /\ handlePointer px py g = g)
  \/ exists i d,
       scan px py (drops g) (List.length (drops g)) = Some i
       /\ nth_error (drops g) i = Some d
       /\ handlePointer px py g = hitDrop i d g.
Proof.
  intro Hr. unfold handlePointer. rewrite Hr. simpl.
  destruct (scan px py (drops g) (List.length (drops g))) as [i|] eqn:E.
  - destruct (scan_some _ _ _ _ _ E) as (_ & d & Hn & _).
    right. exists i, d. rewrite Hn. repeat split; trivial.
  - left. split; trivial.
Qed.

(** ** The drop loop of [update] *)

Section FrameProperties.

Variable Math_sin : Q -> Q.

(** The loop keeps exactly the drops that are not past the bottom after their
    motion, in their order, and charges one [miss] per clean drop that is. *)
Lemma updateDrops_spec (dt date w h : Q) (ds : list Drop) (water : Q) :
  let moved := map (moveDrop Math_sin dt date) ds in
  updateDrops Math_sin dt date w h ds water
  = (map (bounce w) (filter (fun d => negb (fellOff h d)) moved),
     Nat.iter
       (List.length
          (filter (fun d => fellOff h d && negb (d_polluted d)) moved))
       miss water).
Proof.
  induction ds as [|d rest IH]; simpl; trivial.
  simpl in IH. rewrite IH.
  destruct (fellOff h (moveDrop Math_sin dt date d)) eqn:F; simpl; trivial.
  destruct (d_polluted d); simpl; trivial.
Qed.

Lemma miss_iter_inRange (n : nat) (w : Q) :
  inRange w -> inRange (Nat.iter n miss w).
Proof.
  intro H. induction n as [|n IH]; simpl; trivial.
  apply inRange_loss; [lra|exact IH].
Qed.

Lemma spawnStep_fields (f : Frame) (g : Game) :
  waterPercent (spawnStep f g) = waterPercent g
  /\ score (spawnStep f g) = score g
  /\ lives (spawnStep f g) = lives g
  /\ timeLeft (spawnStep f g) = timeLeft g
  /\ running (spawnStep f g) = running g
  /\ paused (spawnStep f g) = paused g
  /\ currentDifficulty (spawnStep f g) = currentDifficulty g
  /\ canvas_w (spawnStep f g) = canvas_w g
  /\ canvas_h (spawnStep f g) = canvas_h g.
Proof.
  unfold spawnStep.
  destruct (Qltb (spawnInterval g) (f_date f - lastSpawn g)); repeat split.
Qed.

Lemma update_fields (dt : Q) (f : Frame) (g : Game) :
  score (update Math_sin dt f g) = score g
  /\ lives (update Math_sin dt f g) = lives g
  /\ timeLeft (update Math_sin dt f g) = timeLeft g
  /\ running (update Math_sin dt f g) = running g
  /\ paused (update Math_sin dt f g) = paused g
  /\ currentDifficulty (update Math_sin dt f g) = currentDifficulty g
  /\ spawnInterval (update Math_sin dt f g) = spawnInterval (spawnStep f g).
Proof.
  unfold update. rewrite updateDrops_spec. simpl.
  destruct (spawnStep_fields f g) as (_&?&?&?&?&?&?&_).
  repeat split; assumption.
Qed.

Lemma update_water_drops (dt : Q) (f : Frame) (g : Game) :
  let g1 := spawnStep f g in
  let moved := map (moveDrop Math_sin dt (f_date f)) (drops g1) in
  drops (update Math_sin dt f g)
  = map (bounce (canvas_w g))
      (filter (fun d => negb (fellOff (canvas_h g) d)) moved)
  /\ waterPercent (update Math_sin dt f g)
     = Nat.iter
         (List.length
            (filter (fun d => fellOff (canvas_h g) d && negb (d_polluted d))
               moved))
         miss (waterPercent g).
Proof.
  unfold update. rewrite updateDrops_spec. simpl.
  destruct (spawnStep_fields f g) as (Hw&_&_&_&_&_&_&Hcw&Hch).
  rewrite Hw, Hcw, Hch. split; reflexivity.
Qed.

Lemma update_inRange (dt : Q) (f : Frame) (g : Game) :
  inRange (waterPercent g) -> inRange (waterPercent (update Math_sin dt f g)).
Proof.
  intro H. destruct (update_water_drops dt f g) as [_ Hw]. rewrite Hw.
  now apply miss_iter_inRange.
Qed.

Lemma loop_inRange (f : Frame) (g : Game) :
  inRange (waterPercent g) -> inRange (waterPercent (loop Math_sin f g)).
Proof.
  intro H. unfold loop. simpl.
  destruct (paused g); simpl; trivial.
  now apply update_inRange.
Qed.

Lemma handlePointer_inRange (px py : Q) (g : Game) :
  inRange (waterPercent g) -> inRange (waterPercent (handlePointer px py g)).
Proof.
  intro H. destruct (running g) eqn:Hr.
  - destruct (handlePointer_cases px py g Hr) as [[_ ->]|(i & d & _ & _ & ->)];
      trivial.
    destruct (d_polluted d) eqn:Hp.
    + destruct (hitDrop_polluted i d g Hp) as (-> & _).
      apply inRange_loss; [lra|exact H].
    + destruct (hitDrop_clean i d g Hp) as (-> & _).
      now apply inRange_gain.
  - unfold handlePointer. rewrite Hr. exact H.
Qed.

Lemma startRound_inRange (rw rh perf : Q) (g : Game) :
  inRange (waterPercent g) ->
  inRange (waterPercent (startRound rw rh perf g)).
Proof.
  intro H. unfold startRound.
  destruct (difficultySettings (currentDifficulty g)); trivial.
  simpl. exact inRange_zero.
Qed.

Lemma timerTick_fields (g : Game) :
  waterPercent (timerTick g) = waterPercent g
  /\ drops (timerTick g) = drops g
  /\ score (timerTick g) = score g
  /\ lives (timerTick g) = lives g.
Proof.
  unfold timerTick. simpl.
  destruct (Qle_bool (timeLeft g - 1) 0); [|repeat split].
  match goal with |- context [endRound ?x] =>
    destruct (endRound_fields x) as (?&?&?&?&_) end.
  repeat split; assumption.
Qed.

Lemma step_inRange (g : Game) (e : Event) :
  inRange (waterPercent g) -> inRange (waterPercent (step Math_sin g e)).
Proof.
  intro H. destruct e; simpl.
  - now apply startRound_inRange.
  - destruct (animating g); trivial. now apply loop_inRange.
  - destruct (intervals g); trivial.
    destruct (timerTick_fields g) as (-> & _). exact H.
  - now apply handlePointer_inRange.
  - unfold pauseGame. destruct (paused g || negb (running g)); trivial.
    destruct (stopTimer_fields (set_flags (running g) true g)) as (-> & _).
    exact H.
  - unfold resumeGame. destruct (negb (paused g)); trivial.
  - unfold resetGame. simpl. exact inRange_zero.
  - unfold selectDifficulty. simpl.
    destruct (negb (running g)); trivial.
    destruct (difficultySettings name); trivial.
  - exact H.
Qed.

Lemma run_inRange (evs : list Event) (g : Game) :
  inRange (waterPercent g) -> inRange (waterPercent (run Math_sin evs g)).
Proof.
  revert g. induction evs as [|e evs IH]; intros g H; simpl; trivial.
  apply IH. now apply step_inRange.
Qed.

End FrameProperties.

(** ** The water meter stays a percentage *)

(** C1. The water meter is between 0 and 100 when the script starts, and
    every operation keeps it there: a tap ([handlePointer], on a clean or a
    polluted drop), a frame's [update] (drops falling off the bottom),
    [startRound], and any other event; so it is between 0 and 100 in every
    state the game reaches. *)
Theorem waterPercent_within_0_100 (Math_sin : Q -> Q) :
  (forall rw rh perf, inRange (waterPercent (initial rw rh perf)))
  /\ (forall g, inRange (waterPercent g) ->
        (forall px py, inRange (waterPercent (handlePointer px py g)))
        /\ (forall dt f, inRange (waterPercent (update Math_sin dt f g)))
        /\ (forall rw rh perf,
              inRange (waterPercent (startRound rw rh perf g)))
        /\ (forall e, inRange (waterPercent (step Math_sin g e))))
  /\ (forall rw rh perf evs,
        inRange (waterPercent (run Math_sin evs (initial rw rh perf)))).
Proof.
  split; [|split].
  - intros. exact inRange_zero.
  - intros g H. split; [|split; [|split]].
    + intros. now apply handlePointer_inRange.
    + intros. now apply update_inRange.
    + intros. now apply startRound_inRange.
    + intros. now apply step_inRange.
  - intros. apply run_inRange. exact inRange_zero.
Qed.

Lemma waterPercent_within_0_100_witness :
  inRange
    (waterPercent
       (handlePointer 100 100
          (midRound [dropAt 100 100 20 false 1000] 0 3 97))).
Proof.
  assert (H : inRange
                (waterPercent
                   (midRound [dropAt 100 100 20 false 1000] 0 3 97))).
  { unfold inRange; simpl; lra. }
  exact (proj1 (proj1 (proj2 (waterPercent_within_0_100 noWind)) _ H)
           100 100).
Defined.

(** ** Clean and polluted hits *)

(** C2. When a tap on a running game hits a clean drop (the scan of
    [handlePointer] stops at a drop that is not polluted), the water meter
    becomes [min(100, waterPercent + 6)], that is [waterPercent + 6] when
    that is at most 100 and 100 otherwise, and the score becomes
    [score + 10]; with the meter at most 100 before, neither goes down, and
    the meter goes up strictly when it was below 100. *)
Theorem clean_hit_gains (px py : Q) (g : Game) (i : nat) (d : Drop) :
  running g = true ->
  scan px py (drops g) (List.length (drops g)) = Some i ->
  nth_error (drops g) i = Some d ->
  d_polluted d = false ->
  waterPercent g <= 100 ->
  let g' := handlePointer px py g in
  waterPercent g' = Qmin 100 (waterPercent g + 6)
  /\ (waterPercent g + 6 <= 100 -> waterPercent g' == waterPercent g + 6)
  /\ (100 <= waterPercent g + 6 -> waterPercent g' == 100)
  /\ score g' = (score g + 10)%Z
  /\ waterPercent g <= waterPercent g'
  /\ (waterPercent g < 100 -> waterPercent g < waterPercent g')
  /\ (score g <= score g')%Z.
Proof.
  intros Hr Hs Hn Hp Hw g'.
  assert (E : g' = hitDrop i d g).
  { unfold g', handlePointer. rewrite Hr, Hs, Hn. reflexivity. }
  destruct (hitDrop_clean i d g Hp) as (Ew & Es & _).
  rewrite E, Ew, Es.
  repeat split.
  - intro H. apply Q.min_r. exact H.
  - intro H. apply Q.min_l. exact H.
  - apply Q.min_glb; lra.
  - intro H. apply Q.min_glb_lt; lra.
  - lia.
Qed.

Lemma clean_hit_gains_witness :
  let g := midRound [dropAt 100 100 20 false 1000] 40 3 97 in
  waterPercent (handlePointer 100 100 g) == 100
  /\ score (handlePointer 100 100 g) = 50%Z.
Proof.
  intro g.
  destruct (clean_hit_gains 100 100 g 0 (dropAt 100 100 20 false 1000))
    as (_ & _ & Hcap & Hscore & _).
  - reflexivity.
  - reflexivity.
  - reflexivity.
  - reflexivity.
  - simpl. lra.
  - split.
    + apply Hcap. simpl. lra.
    + exact Hscore.
Defined.

(** C3. When a tap on a running game hits a polluted drop, the lives become
    [max(0, lives - 1)], one fewer whenever a life was left; the water meter
    becomes [max(0, waterPercent - 10)], ten points fewer when it held at
    least ten and 0 otherwise; the score is unchanged. *)
Theorem polluted_hit_costs (px py : Q) (g : Game) (i : nat) (d : Drop) :
  running g = true ->
  scan px py (drops g) (List.length (drops g)) = Some i ->
  nth_error (drops g) i = Some d ->
  d_polluted d = true ->
  let g' := handlePointer px py g in
  lives g' = Z.max 0 (lives g - 1)
  /\ ((1 <= lives g)%Z -> lives g' = (lives g - 1)%Z)
  /\ waterPercent g' = Qmax 0 (waterPercent g - 10)
  /\ (10 <= waterPercent g -> waterPercent g' == waterPercent g - 10)
  /\ (waterPercent g <= 10 -> waterPercent g' == 0)
  /\ score g' = score g.
Proof.
  intros Hr Hs Hn Hp g'.
  assert (E : g' = hitDrop i d g).
  { unfold g', handlePointer. rewrite Hr, Hs, Hn. reflexivity. }
  destruct (hitDrop_polluted i d g Hp) as (Ew & Es & El & _).
  rewrite E, Ew, Es, El.
  repeat split.
  - intro H. lia.
  - intro H. apply Q.max_r. lra.
  - intro H. apply Q.max_l. lra.
Qed.

Lemma polluted_hit_costs_witness :
  let g := midRound [dropAt 100 100 30 true 1000] 40 3 36 in
  lives (handlePointer 100 100 g) = 2%Z
  /\ waterPercent (handlePointer 100 100 g) == 26
  /\ score (handlePointer 100 100 g) = 40%Z.
Proof.
  intro g.
  destruct (polluted_hit_costs 100 100 g 0 (dropAt 100 100 30 true 1000))
    as (_ & Hl & _ & Hw & _ & Hs); try reflexivity.
  split; [|split].
  - apply Hl. simpl. lia.
  - rewrite Hw; simpl; lra.
  - exact Hs.
Defined.

(** ** Misses *)

Lemma miss_large (w : Q) : 1.2 <= w -> miss w == w - 1.2.
Proof. intro H. unfold miss. apply Q.max_r. lra. Qed.

Lemma miss_small (w : Q) : w <= 1.2 -> miss w == 0.
Proof. intro H. unfold miss. apply Q.max_l. lra. Qed.

(** C4, as the code has it. In one [update], every drop that is past the
    bottom of the canvas after its motion ([d.y - d.size > canvas._h + 60])
    is removed from the drop list and the others stay, in their order; the
    water meter is lowered by [miss], that is by 1.2 with a floor of 0, once
    for every clean drop removed; a polluted drop is removed without any
    change of the meter, so a frame that removes polluted drops only leaves
    the meter as it was. *)
Theorem misses_cost_clean_drops (Math_sin : Q -> Q) (dt : Q) (f : Frame)
    (g : Game) :
  let moved := map (moveDrop Math_sin dt (f_date f)) (drops (spawnStep f g)) in
  let gone := fun d => fellOff (canvas_h g) d in
  let g' := update Math_sin dt f g in
  drops g' = map (bounce (canvas_w g)) (filter (fun d => negb (gone d)) moved)
  /\ waterPercent g'
     = Nat.iter
         (List.length (filter (fun d => gone d && negb (d_polluted d)) moved))
         miss (waterPercent g)
  /\ (forall w, miss w = Qmax 0 (w - 1.2))
  /\ (forall w, 1.2 <= w -> miss w == w - 1.2)
  /\ (forall w, w <= 1.2 -> miss w == 0)
  /\ ((forall d, In d moved -> gone d = true -> d_polluted d = true) ->
      waterPercent g' = waterPercent g).
Proof.
  intros moved gone g'.
  destruct (update_water_drops Math_sin dt f g) as [Hd Hw].
  fold moved in Hd, Hw. fold g' in Hd, Hw.
  split; [exact Hd|]. split; [exact Hw|].
  split; [reflexivity|]. split; [exact miss_large|].
  split; [exact miss_small|].
  intro Hall. rewrite Hw.
  replace (filter (fun d => fellOff (canvas_h g) d && negb (d_polluted d))
             moved) with (@nil Drop); [reflexivity|].
  symmetry. clear Hd Hw.
  induction moved as [|d l IH]; simpl; trivial.
  destruct (fellOff (canvas_h g) d) eqn:F; simpl.
  - rewrite (Hall d (or_introl eq_refl) F). simpl.
    apply IH. intros e He. apply Hall. now right.
  - apply IH. intros e He. apply Hall. now right.
Qed.

Lemma misses_cost_clean_drops_witness :
  let g := midRound [dropAt 300 509.5 30 true 1000] 0 3 50 in
  waterPercent (update noWind 0.016 (frameAt 6016 5016 0.5) g) = 50.
Proof.
  intro g.
  apply (misses_cost_clean_drops noWind 0.016 (frameAt 6016 5016 0.5) g).
  intros d [<-|[]] _. reflexivity.
Defined.

(** C4, as stated, fails for a polluted drop: here one falls past the bottom
    of a 420 pixel canvas and is removed, and whatever [Math.sin] is the
    water meter does not go down. *)
Lemma polluted_miss_keeps_meter :
  let g := midRound [dropAt 300 509.5 30 true 1000] 0 3 50 in
  let f := frameAt 6016 5016 0.5 in
  (forall Math_sin, drops (update Math_sin 0.016 f g) = [])
  /\ ~ (exists Math_sin,
          waterPercent (update Math_sin 0.016 f g) < waterPercent g).
Proof.
  intros g f. split.
  - intro Math_sin. reflexivity.
  - intros [Math_sin H]. vm_compute in H. discriminate.
Qed.

(** ** The spawn interval *)

Lemma difficultySettings_cases (name : string) (s : Settings) :
  difficultySettings name = Some s ->
  s = mkSettings 950 520 10 1.3 45 5
  \/ s = mkSettings 650 340 14 1.7 30 3
  \/ s = mkSettings 420 220 18 2.2 20 2.
Proof.
  unfold difficultySettings, difficultyTable, lookup.
  destruct (String.eqb name "easy"); [intro H; inversion H; auto|].
  destruct (String.eqb name "normal"); [intro H; inversion H; auto|].
  destruct (String.eqb name "hard"); [intro H; inversion H; auto|].
  discriminate.
Qed.

Lemma spawnStep_interval (f : Frame) (g : Game) (s : Settings) :
  difficultySettings (currentDifficulty g) = Some s ->
  Qltb (spawnInterval g) (f_date f - lastSpawn g) = true ->
  spawnInterval (spawnStep f g)
  = Qmax (c_spawnMin s)
      (c_spawnInterval s - (c_roundTime s - timeLeft g) * c_spawnAccel s).
Proof.
  intros Hs Hc. unfold spawnStep. rewrite Hc. simpl. rewrite Hs.
  destruct (difficultySettings_cases _ _ Hs) as [->|[->| ->]]; reflexivity.
Qed.

(** C9, as the code has it. With [s] the settings of the current
    difficulty: an [update] that spawns sets [spawnInterval] to
    [max(s.spawnMin, s.spawnInterval - (s.roundTime - timeLeft) * s.spawnAccel)],
    which is at least [s.spawnMin]; an [update] that does not spawn leaves
    [spawnInterval] as it was; so an [update] step keeps
    [spawnInterval >= s.spawnMin] when it held before, and [startRound]
    makes it hold. *)
Theorem spawnInterval_floor (Math_sin : Q -> Q) (dt : Q) (f : Frame)
    (g : Game) (s : Settings) :
  difficultySettings (currentDifficulty g) = Some s ->
  let g' := update Math_sin dt f g in
  (Qltb (spawnInterval g) (f_date f - lastSpawn g) = true ->
   spawnInterval g'
   = Qmax (c_spawnMin s)
       (c_spawnInterval s - (c_roundTime s - timeLeft g) * c_spawnAccel s)
   /\ c_spawnMin s <= spawnInterval g')
  /\ (Qltb (spawnInterval g) (f_date f - lastSpawn g) = false ->
      spawnInterval g' = spawnInterval g)
  /\ (c_spawnMin s <= spawnInterval g -> c_spawnMin s <= spawnInterval g')
  /\ (forall rw rh perf,
        c_spawnMin s <= spawnInterval (startRound rw rh perf g)).
Proof.
  intros Hs g'.
  destruct (update_fields Math_sin dt f g) as (_&_&_&_&_&_&Hi).
  fold g' in Hi.
  assert (Hspawn : Qltb (spawnInterval g) (f_date f - lastSpawn g) = true ->
                   spawnInterval g'
                   = Qmax (c_spawnMin s)
                       (c_spawnInterval s
                        - (c_roundTime s - timeLeft g) * c_spawnAccel s)).
  { intro Hc. rewrite Hi. now apply spawnStep_interval. }
  assert (Hkeep : Qltb (spawnInterval g) (f_date f - lastSpawn g) = false ->
                  spawnInterval g' = spawnInterval g).
  { intro Hc. rewrite Hi. unfold spawnStep. rewrite Hc. reflexivity. }
  split; [|split; [|split]].
  - intro Hc. split; [now apply Hspawn|].
    rewrite (Hspawn Hc). apply Q.le_max_l.
  - exact Hkeep.
  - intro Hle.
    destruct (Qltb (spawnInterval g) (f_date f - lastSpawn g)) eqn:Hc.
    + rewrite (Hspawn eq_refl). apply Q.le_max_l.
    + rewrite (Hkeep eq_refl). exact Hle.
  - intros rw rh perf. unfold startRound. rewrite Hs. simpl.
    destruct (difficultySettings_cases _ _ Hs) as [->|[->| ->]];
      simpl; lra.
Qed.

Lemma spawnInterval_floor_witness :
  let g := midRound [] 0 3 0 in
  spawnInterval (update noWind 0.016 (frameAt 7016 6000 0.5) g)
  = Qmax 340 (650 - (30 - timeLeft g) * 14).
Proof.
  intro g.
  destruct (spawnInterval_floor noWind 0.016 (frameAt 7016 6000 0.5) g
              (mkSettings 650 340 14 1.7 30 3) eq_refl) as (H & _).
  destruct (H eq_refl) as [E _]. exact E.
Defined.

(** C9, as stated, fails when the difficulty is changed during a round: at
    the end of [switchSession], whose last event is a frame's [update], the
    current difficulty is [easy], whose [spawnMin] is 520, and
    [spawnInterval] is 240, whatever [Math.sin] is. *)
Lemma difficulty_switch_breaks_floor :
  (forall Math_sin,
     let g := run Math_sin switchSession (initial 720 420 0) in
     currentDifficulty g = "easy"%string
     /\ running g = true /\ paused g = false
     /\ spawnInterval g == 240)
  /\ ~ (exists Math_sin s,
          let g := run Math_sin switchSession (initial 720 420 0) in
          difficultySettings (currentDifficulty g) = Some s
          /\ c_spawnMin s <= spawnInterval g).
Proof.
  split.
  - intro Math_sin. lazy. repeat split.
  - intros (Math_sin & s & Hs & Hle).
    lazy in Hs. inversion Hs; subst s; clear Hs.
    lazy in Hle. apply Hle. reflexivity.
Qed.

(** ** The order of the drop list *)

Lemma insertByY_In (d e : Drop) (l : list Drop) :
  In e (insertByY d l) <-> e = d \/ In e l.
Proof.
  induction l as [|a l IH]; simpl.
  - split; intros [H|H]; auto.
  - destruct (Qle_bool (d_y d) (d_y a)); simpl.
    + split; intros [H|H]; auto.
    + rewrite IH. split; intros [H|[H|H]]; auto.
Qed.

Lemma insertByY_sorted (d : Drop) (l : list Drop) :
  sortedByY l -> sortedByY (insertByY d l).
Proof.
  induction l as [|a l IH]; simpl; intro H.
  - split; [intros e []|exact I].
  - destruct H as [Ha Hl].
    destruct (Qle_bool (d_y d) (d_y a)) eqn:E; simpl.
    + apply Qle_bool_iff in E. split; [|split; assumption].
      intros e [<-|He]; trivial.
      apply Qle_trans with (d_y a); auto.
    + apply Qle_bool_false in E. split; [|now apply IH].
      intros e He. apply insertByY_In in He. destruct He as [->|He].
      * now apply Qlt_le_weak.
      * now apply Ha.
Qed.

Lemma sortByY_sorted (l : list Drop) : sortedByY (sortByY l).
Proof.
  induction l as [|d l IH]; simpl; [exact I|].
  now apply insertByY_sorted.
Qed.

(** Sorting a list that is in order gives the list back. *)
Lemma sortByY_sorted_id (l : list Drop) : sortedByY l -> sortByY l = l.
Proof.
  induction l as [|d l IH]; simpl; trivial.
  intros [Hd Hl]. rewrite (IH Hl).
  destruct l as [|e l']; simpl; trivial.
  assert (E : Qle_bool (d_y d) (d_y e) = true).
  { apply Qle_bool_iff. apply Hd. now left. }
  now rewrite E.
Qed.

Lemma splice1_In {A : Type} (i : nat) (l : list A) (a : A) :
  In a (splice1 i l) -> In a l.
Proof.
  unfold splice1. intro H. apply in_app_or in H.
  rewrite <- (firstn_skipn i l). apply in_or_app.
  destruct H as [H|H]; [now left|right].
  replace (skipn (S i) l) with (skipn 1 (skipn i l)) in H
    by (rewrite skipn_skipn; reflexivity).
  destruct (skipn i l) as [|b l']; simpl in H; [destruct H|now right].
Qed.

Lemma splice1_sorted (i : nat) (l : list Drop) :
  sortedByY l -> sortedByY (splice1 i l).
Proof.
  revert i. induction l as [|d l IH]; intros i H.
  - unfold splice1. destruct i; exact I.
  - destruct H as [Hd Hl]. destruct i as [|i].
    + unfold splice1. simpl. exact Hl.
    + change (splice1 (S i) (d :: l)) with (d :: splice1 i l).
      split; [|now apply IH].
      intros e He. apply Hd. now apply splice1_In in He.
Qed.


Lemma handlePointer_drops (px py : Q) (g : Game) :
  drops (handlePointer px py g) = drops g
  \/ exists i, drops (handlePointer px py g) = splice1 i (drops g).
Proof.
  destruct (running g) eqn:Hr.
  - destruct (handlePointer_cases px py g Hr) as [[_ ->]|(i & d & _ & _ & ->)];
      [now left|right].
    exists i. destruct (d_polluted d) eqn:Hp.
    + now destruct (hitDrop_polluted i d g Hp) as (_ & _ & _ & ->).
    + now destruct (hitDrop_clean i d g Hp) as (_ & _ & _ & ->).
  - left. unfold handlePointer. now rewrite Hr.
Qed.

(** Every event leaves the drop list in ascending order of [y]: a frame ends
    with [render]'s sort, a tap removes one drop, the others leave the list
    alone or empty it. *)
Lemma step_sorted (Math_sin : Q -> Q) (g : Game) (e : Event) :
  sortedByY (drops g) -> sortedByY (drops (step Math_sin g e)).
Proof.
  intro H. destruct e; simpl.
  - unfold startRound.
    destruct (difficultySettings (currentDifficulty g)); [exact I|exact H].
  - destruct (animating g); trivial.
    unfold loop. simpl. apply sortByY_sorted.
  - destruct (intervals g); trivial.
    now destruct (timerTick_fields g) as (_ & -> & _).
  - destruct (handlePointer_drops px py g) as [->|[i ->]]; trivial.
    now apply splice1_sorted.
  - unfold pauseGame. destruct (paused g || negb (running g)); trivial.
    now destruct (stopTimer_fields (set_flags (running g) true g))
      as (_ & -> & _).
  - unfold resumeGame. destruct (negb (paused g)); trivial.
  - exact I.
  - unfold selectDifficulty. simpl.
    destruct (negb (running g)); trivial.
    destruct (difficultySettings name); trivial.
  - exact H.
Qed.

Lemma run_sorted (Math_sin : Q -> Q) (evs : list Event) (g : Game) :
  sortedByY (drops g) -> sortedByY (drops (run Math_sin evs g)).
Proof.
  revert g. induction evs as [|e evs IH]; intros g H; simpl; trivial.
  apply IH. now apply step_sorted.
Qed.

(** ** Paused frames *)

(** C10. In every state the game reaches, a call of [loop] made while
    [paused] is true leaves [drops], [score], [lives], [waterPercent],
    [timeLeft] and [spawnInterval] as they were: [update] is skipped, and
    [render]'s sort finds the drop list already in order.  The same holds
    for the frame event, which calls [loop] only while one is requested. *)
Theorem paused_frame_changes_nothing (Math_sin : Q -> Q) (rw rh perf : Q)
    (evs : list Event) (f : Frame) :
  let g := run Math_sin evs (initial rw rh perf) in
  paused g = true ->
  (drops (loop Math_sin f g) = drops g
   /\ score (loop Math_sin f g) = score g
   /\ lives (loop Math_sin f g) = lives g
   /\ waterPercent (loop Math_sin f g) = waterPercent g
   /\ timeLeft (loop Math_sin f g) = timeLeft g
   /\ spawnInterval (loop Math_sin f g) = spawnInterval g)
  /\ (drops (step Math_sin g (EFrame f)) = drops g
      /\ score (step Math_sin g (EFrame f)) = score g
      /\ lives (step Math_sin g (EFrame f)) = lives g
      /\ waterPercent (step Math_sin g (EFrame f)) = waterPercent g
      /\ timeLeft (step Math_sin g (EFrame f)) = timeLeft g
      /\ spawnInterval (step Math_sin g (EFrame f)) = spawnInterval g).
Proof.
  intros g Hp.
  assert (Hs : sortedByY (drops g)).
  { apply run_sorted. exact I. }
  assert (L : drops (loop Math_sin f g) = drops g
              /\ score (loop Math_sin f g) = score g
              /\ lives (loop Math_sin f g) = lives g
              /\ waterPercent (loop Math_sin f g) = waterPercent g
              /\ timeLeft (loop Math_sin f g) = timeLeft g
              /\ spawnInterval (loop Math_sin f g) = spawnInterval g).
  { unfold loop. simpl. rewrite Hp. simpl.
    rewrite (sortByY_sorted_id _ Hs). repeat split. }
  split; [exact L|].
  simpl. destruct (animating g); [exact L|repeat split].
Qed.

Lemma paused_frame_changes_nothing_witness :
  let g :=
    run noWind
      [EStartRound 720 420 1000; EFrame (frameAt 1016 1700000000000 0.5);
       EPause]
      (initial 720 420 0) in
  let f := frameAt 1032 1700000000016 0.5 in
  drops (loop noWind f g) = drops g
  /\ waterPercent (loop noWind f g) = waterPercent g.
Proof.
  intros g f.
  destruct (paused_frame_changes_nothing noWind 720 420 0
              [EStartRound 720 420 1000;
               EFrame (frameAt 1016 1700000000000 0.5); EPause] f eq_refl)
    as [(Hd & _ & _ & Hw & _) _].
  split; [exact Hd|exact Hw].
Defined.

(** ** When a round ends *)


Lemma checkGameOver_running (g : Game) :
  running (checkGameOver g)
  = if (lives g <=? 0)%Z || Qle_bool 100 (waterPercent g) then false
    else running g.
Proof.
  unfold checkGameOver.
  destruct ((lives g <=? 0)%Z || Qle_bool 100 (waterPercent g));
    [apply endRound_fields|reflexivity].
Qed.

Lemma hitDrop_running (i : nat) (d : Drop) (g : Game) :
  running (hitDrop i d g)
  = if (lives (hitDrop i d g) <=? 0)%Z
       || Qle_bool 100 (waterPercent (hitDrop i d g))
    then false else running g.
Proof.
  unfold hitDrop.
  match goal with |- context [checkGameOver ?x] => set (g2 := x) end.
  rewrite checkGameOver_running.
  destruct (checkGameOver_fields g2) as (Hw&_&_&Hl&_). rewrite Hw, Hl.
  assert (E : running g2 = running g).
  { unfold g2. simpl. destruct (d_polluted d); [reflexivity|].
    match goal with |- running (checkMilestones ?x) = _ =>
      destruct (checkMilestones_fields x) as (_&_&_&_&_&Hrun&_) end.
    rewrite Hrun. reflexivity. }
  now rewrite E.
Qed.

Lemma game_over_test (lv : Z) (w : Q) :
  (lv <=? 0)%Z || Qle_bool 100 w = true <-> (lv <= 0)%Z \/ 100 <= w.
Proof.
  rewrite orb_true_iff, Z.leb_le, Qle_bool_iff. reflexivity.
Qed.




(** ** The length of a round *)

Lemma startRound_timeLeft (rw rh perf : Q) (g : Game) (s : Settings) :
  difficultySettings (currentDifficulty g) = Some s ->
  timeLeft (startRound rw rh perf g) = roundTime.
Proof.
  intro Hs. unfold startRound. rewrite Hs. reflexivity.
Qed.

(** C6, where the code departs from it. The table gives [roundTime] 45 for
    [easy], 30 for [normal] and 20 for [hard], and [startRound] assigns it
    to [timeLeft]; but [startRound] then calls [startTimer], which assigns
    the global constant [roundTime = 30]: a round starts with 30 seconds on
    every difficulty. *)
Lemma startRound_timeLeft_is_30 (rw rh perf : Q) (g : Game) :
  (option_map c_roundTime (difficultySettings "easy") = Some 45
   /\ timeLeft (startRound rw rh perf (set_currentDifficulty "easy" g)) = 30)
  /\ (option_map c_roundTime (difficultySettings "normal") = Some 30
      /\ timeLeft (startRound rw rh perf (set_currentDifficulty "normal" g))
         = 30)
  /\ (option_map c_roundTime (difficultySettings "hard") = Some 20
      /\ timeLeft (startRound rw rh perf (set_currentDifficulty "hard" g))
         = 30).
Proof. repeat split. Qed.

(** ** New drops *)

Lemma rand_between (r a b : Q) :
  0 <= r -> r <= 1 -> a <= b -> a <= rand r a b /\ rand r a b <= b.
Proof.
  intros H0 H1 Hab. unfold rand.
  assert (P : 0 <= r * (b - a)) by (apply Qmult_le_0_compat; lra).
  assert (N : 0 <= (1 - r) * (b - a)) by (apply Qmult_le_0_compat; lra).
  split; lra.
Qed.

Lemma rand_below (r a b : Q) :
  0 <= r -> r < 1 -> a < b -> rand r a b < b.
Proof.
  intros H0 H1 Hab. unfold rand.
  assert (N : 0 < (1 - r) * (b - a)) by (apply Qmult_lt_0_compat; lra).
  lra.
Qed.

Lemma dropSpeed_positive (name : string) :
  0 < orDefault (option_map c_dropSpeed (difficultySettings name)) 1.
Proof.
  unfold difficultySettings, difficultyTable, lookup.
  destruct (String.eqb name "easy"); [reflexivity|].
  destruct (String.eqb name "normal"); [reflexivity|].
  destruct (String.eqb name "hard"); reflexivity.
Qed.

(** C7, as the code has it. With every result of [Math.random()] in
    [0, 1), the drop [createDrop] returns has a size of at least 18 and
    below 35, starts at [y = -2 * size], above the canvas, has a positive
    downward speed and carries the requested [polluted] flag; and when the
    canvas is at least four sizes wide, as every canvas of 140 pixels or
    more is, its [x] lies between [2 * size] and [canvas._w - 2 * size]. *)
Theorem createDrop_shape (date : Q) (rnd : nat -> Q) (isPolluted : bool)
    (g : Game) :
  (forall n, 0 <= rnd n /\ rnd n < 1) ->
  let d := createDrop date rnd isPolluted g in
  (0 < d_size d /\ 18 <= d_size d /\ d_size d < 35
   /\ d_y d == - (2 * d_size d) /\ d_y d < 0
   /\ 0 < d_speed d
   /\ d_polluted d = isPolluted)
  /\ (4 * d_size d <= canvas_w g \/ 140 <= canvas_w g ->
      2 * d_size d <= d_x d /\ d_x d <= canvas_w g - 2 * d_size d).
Proof.
  intros Hr d.
  pose proof (Hr 0%nat) as [H0 H0'].
  pose proof (Hr 1%nat) as [H1 H1'].
  pose proof (Hr 2%nat) as [H2 H2'].
  pose proof (dropSpeed_positive (currentDifficulty g)) as Hm.
  assert (Hsize : 18 <= d_size d /\ d_size d < 35).
  { unfold d, createDrop. simpl. destruct isPolluted.
    - destruct (rand_between (rnd 0%nat) 24 35) as [Ha _]; try lra.
      pose proof (rand_below (rnd 0%nat) 24 35). lra.
    - destruct (rand_between (rnd 0%nat) 18 28) as [Ha _]; try lra.
      pose proof (rand_below (rnd 0%nat) 18 28). lra. }
  destruct Hsize as [Hlo Hhi].
  split.
  - split; [lra|]. split; [exact Hlo|]. split; [exact Hhi|].
    assert (Ey : d_y d = - d_size d * 2) by reflexivity.
    split; [rewrite Ey; ring|].
    split; [rewrite Ey; lra|].
    split; [|reflexivity].
    unfold d, createDrop. simpl.
    apply Qmult_lt_0_compat; [|exact Hm].
    destruct isPolluted.
    + destruct (rand_between (rnd 2%nat) 40 60); lra.
    + destruct (rand_between (rnd 2%nat) 30 50); lra.
  - intro Hw.
    assert (Hw' : 4 * d_size d <= canvas_w g) by (destruct Hw; lra).
    assert (E : d_x d
                = rand (rnd 1%nat) (d_size d * 2)
                    (canvas_w g - d_size d * 2)) by reflexivity.
    destruct (rand_between (rnd 1%nat) (d_size d * 2)
                (canvas_w g - d_size d * 2)) as [Ha Hb]; try lra.
    rewrite E. split; lra.
Qed.

Lemma createDrop_shape_witness :
  let d := createDrop 5000 (fun _ => 0.5) false (initial 720 420 0) in
  0 < d_speed d /\ 2 * d_size d <= d_x d.
Proof.
  intro d.
  assert (Hr : forall n : nat, 0 <= (fun _ : nat => 0.5) n
                               /\ (fun _ : nat => 0.5) n < 1).
  { intro n. simpl. split; lra. }
  destruct (createDrop_shape 5000 (fun _ => 0.5) false (initial 720 420 0) Hr)
    as [(_ & _ & _ & _ & _ & Hs & _) Hx].
  split; [exact Hs|].
  apply Hx. right. vm_compute. discriminate.
Defined.

(** C7, as stated, fails on a narrow canvas: on one 100 pixels wide, a
    polluted drop whose calls of [Math.random()] all return one half has
    size 29.5 and [x = 50], left of [2 * size = 59] and right of
    [canvas._w - 2 * size = 41]. *)
Lemma narrow_canvas_drop_outside :
  let g := initial 100 420 0 in
  let d := createDrop 5000 (fun _ => 0.5) true g in
  canvas_w g == 100 /\ d_size d == 29.5 /\ d_x d == 50
  /\ d_x d < 2 * d_size d /\ canvas_w g - 2 * d_size d < d_x d.
Proof.
  intros g d. vm_compute. repeat split.
Qed.

(** ** One tap, one drop *)

Lemma hit_iff (px py : Q) (d : Drop) :
  hit px py d = true
  <-> 0 < d_size d * 1.8
      /\ (d_x d - px) * (d_x d - px) + (d_y d - py) * (d_y d - py)
         < (d_size d * 1.8) * (d_size d * 1.8).
Proof.
  unfold hit. rewrite andb_true_iff, !Qltb_lt. reflexivity.
Qed.

(** C8, as the code has it. A tap on a running game either finds no drop
    within reach and changes nothing, or acts on exactly one: the drop at
    the highest index of the drop list whose centre is within 1.8 times its
    size of the tap point.  That drop alone is removed, the others stay in
    their order, and the tap is scored once: 10 points for a clean drop, a
    life for a polluted one. *)
Theorem tap_hits_one_drop (px py : Q) (g : Game) :
  running g = true ->
  let g' := handlePointer px py g in
  ((forall d, In d (drops g) -> hit px py d = false) /\ g' = g)
  \/ (exists i d,
        nth_error (drops g) i = Some d
        /\ hit px py d = true
        /\ (0 < d_size d * 1.8
            /\ (d_x d - px) * (d_x d - px) + (d_y d - py) * (d_y d - py)
               < (d_size d * 1.8) * (d_size d * 1.8))
        /\ (forall k d', (i < k)%nat -> nth_error (drops g) k = Some d' ->
                         hit px py d' = false)
        /\ drops g' = firstn i (drops g) ++ skipn (S i) (drops g)
        /\ (List.length (drops g') + 1 = List.length (drops g))%nat
        /\ (d_polluted d = false ->
            score g' = (score g + 10)%Z /\ lives g' = lives g)
        /\ (d_polluted d = true ->
            score g' = score g /\ lives g' = Z.max 0 (lives g - 1))).
Proof.
  intros Hr g'. unfold g'.
  destruct (handlePointer_cases px py g Hr)
    as [[Hn ->]|(i & d & Hs & Hd & ->)].
  - left. split; trivial. intros d Hin.
    destruct (In_nth_error _ _ Hin) as [k Hk].
    apply (scan_none _ _ _ _ Hn k d); trivial.
    apply nth_error_Some. congruence.
  - right. exists i, d.
    destruct (scan_some _ _ _ _ _ Hs) as (Hlt & d0 & Hd0 & Hh & Habove).
    assert (d0 = d) by congruence. subst d0.
    assert (Hdrops : drops (hitDrop i d g) = splice1 i (drops g)).
    { destruct (d_polluted d) eqn:Hp.
      - now destruct (hitDrop_polluted i d g Hp) as (_ & _ & _ & ->).
      - now destruct (hitDrop_clean i d g Hp) as (_ & _ & _ & ->). }
    split; [exact Hd|]. split; [exact Hh|].
    split; [now apply hit_iff|].
    split.
    { intros k d' Hk Hn.
      apply (Habove k d'); trivial. split; trivial.
      apply nth_error_Some. congruence. }
    split; [exact Hdrops|].
    split; [rewrite Hdrops; now apply splice1_length|].
    split; intro Hp.
    + destruct (hitDrop_clean i d g Hp) as (_ & -> & -> & _). now split.
    + destruct (hitDrop_polluted i d g Hp) as (_ & -> & -> & _). now split.
Qed.

Lemma tap_hits_one_drop_witness :
  let g := midRound [newerDrop; olderDrop] 0 3 0 in
  (forall d, In d (drops g) -> hit 400 300 d = false)
  /\ handlePointer 400 300 g = g.
Proof.
  intro g.
  destruct (tap_hits_one_drop 400 300 g eq_refl) as [H|(i & d & Hn & Hh & _)].
  - exact H.
  - exfalso. destruct i as [|[|i]]; simpl in Hn.
    + inversion Hn; subst d. vm_compute in Hh. discriminate.
    + inversion Hn; subst d. vm_compute in Hh. discriminate.
    + destruct i; discriminate.
Defined.

(** C8, as stated, fails where it takes the last drop of the list for the
    most recently spawned one: [render] sorts the list by [y].  Here
    [olderDrop] was pushed before [newerDrop] and is lower on the canvas;
    after [render] it is last in the list, and a tap within reach of both
    removes it and leaves the newer drop. *)
Lemma tap_takes_older_drop :
  let g := render (midRound [olderDrop; newerDrop] 0 3 0) in
  let g' := handlePointer 100 95 g in
  drops g = [newerDrop; olderDrop]
  /\ d_birth olderDrop < d_birth newerDrop
  /\ hit 100 95 newerDrop = true
  /\ hit 100 95 olderDrop = true
  /\ drops g' = [newerDrop]
  /\ score g' = 10%Z.
Proof.
  intros g g'. vm_compute. repeat split.
Qed.

(** * Further properties *)

(** ** The invariant of the reachable states *)

Lemma endRound_eq (g : Game) :
  endRound g
  = mkGame false false (drops g) (lastSpawn g) (spawnInterval g) (score g)
      (lives g) (waterPercent g) (timeLeft g) false
      (if timerId g then Nat.pred (intervals g) else intervals g) false
      (currentDifficulty g) (milestonesReached g) (lastFrame g) (canvas_w g)
      (canvas_h g).
Proof.
  unfold endRound, stopTimer. simpl. destruct (timerId g); reflexivity.
Qed.

Lemma miss_iter_below (n : nat) (w : Q) :
  0 <= w -> Nat.iter n miss w <= w.
Proof.
  intro H. induction n as [|n IH]; simpl; [lra|].
  unfold miss at 1. apply Q.max_lub; lra.
Qed.

Lemma loop_control (Math_sin : Q -> Q) (f : Frame) (g : Game) :
  running (loop Math_sin f g) = running g
  /\ paused (loop Math_sin f g) = paused g
  /\ score (loop Math_sin f g) = score g
  /\ lives (loop Math_sin f g) = lives g
  /\ timeLeft (loop Math_sin f g) = timeLeft g
  /\ timerId (loop Math_sin f g) = timerId g
  /\ intervals (loop Math_sin f g) = intervals g
  /\ milestonesReached (loop Math_sin f g) = milestonesReached g
  /\ currentDifficulty (loop Math_sin f g) = currentDifficulty g
  /\ animating (loop Math_sin f g) = true.
Proof.
  unfold loop, render, update, spawnStep. simpl.
  destruct (paused g) eqn:Hp; simpl; rewrite ?Hp.
  - repeat split.
  - destruct (Qltb (spawnInterval g) (f_date f - lastSpawn g)); simpl;
      rewrite ?Hp; repeat split.
Qed.

Lemma update_water_le (Math_sin : Q -> Q) (dt : Q) (f : Frame) (g : Game) :
  0 <= waterPercent g ->
  waterPercent (update Math_sin dt f g) <= waterPercent g.
Proof.
  intro H. destruct (update_water_drops Math_sin dt f g) as [_ Hw].
  rewrite Hw. now apply miss_iter_below.
Qed.

Lemma loop_water (Math_sin : Q -> Q) (f : Frame) (g : Game) :
  inRange (waterPercent g) ->
  inRange (waterPercent (loop Math_sin f g))
  /\ waterPercent (loop Math_sin f g) <= waterPercent g.
Proof.
  intro H. split; [now apply loop_inRange|].
  unfold loop, render.
  cbn [waterPercent set_animating set_drops set_lastFrame paused].
  destruct (paused g); cbn [negb waterPercent set_lastFrame]; [lra|].
  apply (update_water_le Math_sin _ f (set_lastFrame (f_now f) g)).
  apply H.
Qed.

Lemma checkMilestones_fold_reached (ms : list Z) (g : Game) :
  let g' :=
    fold_left
      (fun acc m =>
         if (m <=? score acc)%Z
            && negb (existsb (Z.eqb m) (milestonesReached acc))
         then set_milestonesReached (milestonesReached acc ++ [m]) acc
         else acc) ms g in
  (NoDup (milestonesReached g) -> NoDup (milestonesReached g'))
  /\ forall m, In m (milestonesReached g')
               <-> In m (milestonesReached g)
                   \/ (In m ms /\ (m <= score g)%Z).
Proof.
  revert g. induction ms as [|a ms IH]; intro g; simpl.
  - split; trivial. intro m. tauto.
  - match goal with |- context [fold_left _ ms ?x] => set (g1 := x) end.
    specialize (IH g1). simpl in IH. destruct IH as [IHn IHr].
    assert (Hs : score g1 = score g).
    { unfold g1. destruct (_ && _); reflexivity. }
    assert (Hin : forall m, In m (milestonesReached g1)
                            <-> In m (milestonesReached g)
                                \/ (m = a /\ (m <= score g)%Z)).
    { intro m. unfold g1.
      destruct ((a <=? score g)%Z) eqn:Ea; simpl.
      - apply Z.leb_le in Ea.
        destruct (existsb (Z.eqb a) (milestonesReached g)) eqn:Eb; simpl.
        + apply existsb_exists in Eb. destruct Eb as (x & Hx & Hax).
          apply Z.eqb_eq in Hax. subst x.
          split; [tauto|]. intros [H|[-> _]]; trivial.
        + rewrite in_app_iff. simpl. split.
          * intros [H|[<-|[]]]; [tauto|]. right. split; trivial.
          * intros [H|[-> _]]; tauto.
      - apply Z.leb_gt in Ea. split; [tauto|].
        intros [H|[-> H]]; [trivial|lia]. }
    split.
    + intro Hnd. apply IHn. unfold g1.
      destruct ((a <=? score g)%Z
                && negb (existsb (Z.eqb a) (milestonesReached g))) eqn:E;
        simpl; trivial.
      apply andb_true_iff in E. destruct E as [_ E].
      apply negb_true_iff in E.
      apply NoDup_app; trivial.
      * constructor; [intros []|constructor].
      * intros x Hx [<-|[]].
        assert (existsb (Z.eqb a) (milestonesReached g) = true); [|congruence].
        apply existsb_exists. exists a. split; trivial. apply Z.eqb_refl.
    + intro m. rewrite IHr, Hin, Hs. split.
      * intros [[H|[-> H]]|[H1 H2]]; auto.
      * intros [H|[[<-|H1] H2]]; auto.
Qed.

Lemma checkMilestones_reached (g : Game) :
  (NoDup (milestonesReached g) -> NoDup (milestonesReached (checkMilestones g)))
  /\ forall m, In m (milestonesReached (checkMilestones g))
               <-> In m (milestonesReached g) \/ reachedBy (score g) m.
Proof. exact (checkMilestones_fold_reached milestones g). Qed.

Lemma tick_time (t : Q) (n : Z) :
  t == inject_Z n -> (0 <= n <= 30)%Z ->
  exists n', (0 <= n' <= 30)%Z
             /\ (if Qle_bool (t - 1) 0 then 0 else t - 1) == inject_Z n'.
Proof.
  intros Ht Hn. destruct (Qle_bool (t - 1) 0) eqn:E.
  - exists 0%Z. split; [lia|reflexivity].
  - apply Qle_bool_false in E. rewrite Ht in E.
    assert (Hlt : inject_Z 1 < inject_Z n).
    { change (inject_Z 1) with 1. lra. }
    rewrite <- Zlt_Qlt in Hlt.
    exists (n - 1)%Z. split; [lia|].
    rewrite Ht. unfold Z.sub. rewrite inject_Z_plus. reflexivity.
Qed.

Lemma Invariant_initial (rw rh perf : Q) : Invariant (initial rw rh perf).
Proof.
  constructor; simpl; try discriminate; try reflexivity.
  - lia.
  - exists 0%Z. split; [lia|reflexivity].
  - exists 30%Z. split; [lia|reflexivity].
  - exact inRange_zero.
  - constructor.
Qed.

Lemma Invariant_startRound (rw rh perf : Q) (g : Game) :
  Invariant g -> Invariant (startRound rw rh perf g).
Proof.
  intro H. unfold startRound.
  destruct (difficultySettings (currentDifficulty g)) as [s|] eqn:Hs;
    [|exact H].
  constructor; simpl; try reflexivity; try discriminate.
  - intros _.
    destruct (difficultySettings_cases _ _ Hs) as [->|[->| ->]];
      simpl; split; solve [lia|lra].
  - destruct (difficultySettings_cases _ _ Hs) as [->|[->| ->]];
      simpl; lia.
  - exists 0%Z. split; [lia|reflexivity].
  - exists 30%Z. split; [lia|reflexivity].
  - intros _. lia.
  - exact inRange_zero.
  - constructor.
  - intros _ m. unfold reachedBy, milestones. simpl. split; [tauto|].
    intros [[<-|[<-|[<-|[]]]] Hm]; lia.
Qed.

Lemma Invariant_loop (Math_sin : Q -> Q) (f : Frame) (g : Game) :
  animating g = true -> Invariant g -> Invariant (loop Math_sin f g).
Proof.
  intros Ha H.
  destruct (loop_control Math_sin f g)
    as (Hr & Hp & Hsc & Hl & Ht & Hti & Hiv & Hms & _ & Han).
  destruct (loop_water Math_sin f g (inv_water g H)) as [Hw Hle].
  constructor; rewrite ?Hr, ?Hp, ?Hsc, ?Hl, ?Ht, ?Hti, ?Hiv, ?Hms, ?Han;
    try apply H.
  - rewrite <- (inv_animating g H). symmetry. exact Ha.
  - intro R. destruct (inv_alive g H R) as [Hlv Hwt]. split; [exact Hlv|lra].
  - exact Hw.
  - unfold loop. simpl. apply sortByY_sorted.
Qed.

Lemma Invariant_timerTick (g : Game) :
  Invariant g -> Invariant (timerTick g).
Proof.
  intro H. destruct (inv_time g H) as (n & Hn & Htl).
  destruct (tick_time (timeLeft g) n Htl Hn) as (n' & Hn' & Htl').
  unfold timerTick. cbn [timeLeft set_timeLeft].
  destruct (Qle_bool (timeLeft g - 1) 0) eqn:E.
  - rewrite endRound_eq. constructor; simpl; try discriminate;
      try reflexivity; try apply H.
    exists 0%Z. split; [lia|reflexivity].
  - constructor; simpl; try apply H.
    exists n'. split; assumption.
Qed.

(** [checkGameOver] makes the invariant whole again after a hit. *)
Lemma Invariant_checkGameOver (g : Game) :
  (paused g = true -> running g = true) ->
  timerId g = running g && negb (paused g) ->
  animating g = running g ->
  (0 <= lives g <= 5)%Z ->
  (exists k, (0 <= k)%Z /\ score g = (10 * k)%Z) ->
  (exists n, (0 <= n <= 30)%Z /\ timeLeft g == inject_Z n) ->
  (timerId g = true -> (1 <= intervals g)%nat) ->
  inRange (waterPercent g) ->
  sortedByY (drops g) ->
  NoDup (milestonesReached g) ->
  (forall m, In m (milestonesReached g) <-> reachedBy (score g) m) ->
  Invariant (checkGameOver g).
Proof.
  intros H1 H2 H3 H4 H5 H6 H7 H8 H9 H10 H11.
  unfold checkGameOver.
  destruct ((lives g <=? 0)%Z || Qle_bool 100 (waterPercent g)) eqn:E.
  - rewrite endRound_eq.
    constructor; simpl; try discriminate; try reflexivity; assumption.
  - apply orb_false_iff in E. destruct E as [El Ew].
    apply Z.leb_gt in El. apply Qle_bool_false in Ew.
    constructor; trivial. intros _. split; [lia|exact Ew].
Qed.

Lemma Invariant_hitDrop (i : nat) (d : Drop) (g : Game) :
  running g = true -> Invariant g -> Invariant (hitDrop i d g).
Proof.
  intros Hr H. unfold hitDrop.
  destruct (d_polluted d).
  - apply Invariant_checkGameOver.
    + exact (inv_paused g H).
    + exact (inv_timerId g H).
    + exact (inv_animating g H).
    + pose proof (inv_lives g H). simpl. lia.
    + exact (inv_score g H).
    + exact (inv_time g H).
    + exact (inv_handle g H).
    + simpl. apply inRange_loss; [lra|apply H].
    + simpl. apply splice1_sorted. apply H.
    + exact (inv_nodup g H).
    + exact (inv_reached g H Hr).
  - set (g0 := set_waterPercent (Qmin 100 (waterPercent g + 6))
                 (set_score (score g + 10) g)).
    destruct (checkMilestones_fields g0)
      as (Hw & Hd & Hs & Hl & Ht & Hrn & Hp & Hti & Hiv & Han).
    destruct (checkMilestones_reached g0) as [Hnd Hin].
    apply Invariant_checkGameOver;
      cbn [paused running timerId animating lives score timeLeft intervals
           waterPercent drops milestonesReached set_drops];
      rewrite ?Hw, ?Hd, ?Hs, ?Hl, ?Ht, ?Hrn, ?Hp, ?Hti, ?Hiv, ?Han.
    + exact (inv_paused g H).
    + exact (inv_timerId g H).
    + exact (inv_animating g H).
    + exact (inv_lives g H).
    + destruct (inv_score g H) as (k & Hk & Ek).
      exists (k + 1)%Z. split; [lia|].
      change (score g0) with (score g + 10)%Z. rewrite Ek. ring.
    + exact (inv_time g H).
    + exact (inv_handle g H).
    + apply inRange_gain. apply H.
    + apply splice1_sorted. apply H.
    + apply Hnd. exact (inv_nodup g H).
    + intro m. rewrite Hin.
      change (milestonesReached g0) with (milestonesReached g).
      change (score g0) with (score g + 10)%Z.
      rewrite (inv_reached g H Hr m). unfold reachedBy.
      split; [|tauto]. intros [[Hm Hle]|Hm]; [|exact Hm].
      split; [exact Hm|lia].
Qed.

Lemma Invariant_handlePointer (px py : Q) (g : Game) :
  Invariant g -> Invariant (handlePointer px py g).
Proof.
  intro H. destruct (running g) eqn:Hr.
  - destruct (handlePointer_cases px py g Hr) as [[_ ->]|(i & d & _ & _ & ->)];
      [exact H|].
    now apply Invariant_hitDrop.
  - unfold handlePointer. rewrite Hr. exact H.
Qed.

Lemma Invariant_pauseGame (g : Game) : Invariant g -> Invariant (pauseGame g).
Proof.
  intro H. unfold pauseGame.
  destruct (paused g) eqn:Hp; [exact H|].
  destruct (running g) eqn:Hr; [|exact H].
  pose proof (inv_timerId g H) as Ht. rewrite Hr, Hp in Ht. simpl in Ht.
  unfold stopTimer. cbn [timerId set_flags]. rewrite Ht.
  pose proof (inv_animating g H) as Ha. rewrite Hr in Ha.
  pose proof (inv_alive g H) as Hal. rewrite Hr in Hal.
  pose proof (inv_reached g H) as Hre. rewrite Hr in Hre.
  constructor;
    cbn [paused running timerId animating lives score timeLeft intervals
         waterPercent drops milestonesReached set_timer set_flags];
    try apply H; try discriminate; trivial.
Qed.

Lemma Invariant_resumeGame (perf : Q) (g : Game) :
  Invariant g -> Invariant (resumeGame perf g).
Proof.
  intro H. unfold resumeGame.
  destruct (paused g) eqn:Hp; [|exact H]. simpl.
  pose proof (inv_paused g H Hp) as Hr.
  pose proof (inv_animating g H) as Ha. rewrite Hr in Ha.
  pose proof (inv_alive g H) as Hal. rewrite Hr in Hal.
  pose proof (inv_reached g H) as Hre. rewrite Hr in Hre.
  constructor;
    cbn [paused running timerId animating lives score timeLeft intervals
         waterPercent drops milestonesReached set_timer set_flags
         set_lastFrame set_timeLeft startTimer];
    try apply H; try discriminate; trivial.
  - rewrite Hr. reflexivity.
  - exists 30%Z. split; [lia|reflexivity].
  - intros _. lia.
Qed.

Lemma Invariant_resetGame (rw rh : Q) (g : Game) :
  Invariant g -> Invariant (resetGame rw rh g).
Proof.
  intro H. unfold resetGame, stopTimer, setupCanvas.
  cbn [timerId set_flags].
  destruct (timerId g);
    (constructor;
     cbn [paused running timerId animating lives score timeLeft intervals
          waterPercent drops milestonesReached set_timer set_flags
          set_lastFrame set_timeLeft set_canvas set_animating set_drops
          set_waterPercent set_score set_lives];
     try apply H; try discriminate; trivial;
     [lia
     |exists 0%Z; split; [lia|reflexivity]
     |exists 30%Z; split; [lia|reflexivity]
     |exact inRange_zero
     |exact I]).
Qed.

Lemma Invariant_selectDifficulty (name : string) (g : Game) :
  Invariant g -> Invariant (selectDifficulty name g).
Proof.
  intro H. unfold selectDifficulty. cbn [running set_currentDifficulty].
  destruct (running g) eqn:Hr; simpl.
  - constructor; simpl; apply H.
  - destruct (difficultySettings name) as [s|] eqn:Hs.
    + pose proof (inv_reached g H) as Hre.
      constructor;
        cbn [paused running timerId animating lives score timeLeft intervals
             waterPercent drops milestonesReached set_lives
             set_currentDifficulty];
        try apply H; try (rewrite Hr; discriminate).
      destruct (difficultySettings_cases _ _ Hs) as [->|[->| ->]];
        simpl; lia.
    + constructor; simpl; apply H.
Qed.

Lemma Invariant_setupCanvas (rw rh : Q) (g : Game) :
  Invariant g -> Invariant (setupCanvas rw rh g).
Proof.
  intro H. constructor; simpl; apply H.
Qed.

Lemma Invariant_step (Math_sin : Q -> Q) (g : Game) (e : Event) :
  Invariant g -> Invariant (step Math_sin g e).
Proof.
  intro H. destruct e; simpl.
  - now apply Invariant_startRound.
  - destruct (animating g) eqn:Ha; [|exact H]. now apply Invariant_loop.
  - destruct (intervals g); [exact H|]. now apply Invariant_timerTick.
  - now apply Invariant_handlePointer.
  - now apply Invariant_pauseGame.
  - now apply Invariant_resumeGame.
  - now apply Invariant_resetGame.
  - now apply Invariant_selectDifficulty.
  - now apply Invariant_setupCanvas.
Qed.

Lemma Invariant_run (Math_sin : Q -> Q) (evs : list Event) (g : Game) :
  Invariant g -> Invariant (run Math_sin evs g).
Proof.
  revert g. induction evs as [|e evs IH]; intros g H; simpl; trivial.
  apply IH. now apply Invariant_step.
Qed.

Lemma Invariant_reachable (Math_sin : Q -> Q) (rw rh perf : Q)
    (evs : list Event) :
  Invariant (run Math_sin evs (initial rw rh perf)).
Proof. apply Invariant_run. apply Invariant_initial. Qed.

(** ** Lives, score, timer and flags *)

(** X1. In every state the game reaches, a round that is running has at
    least one life left and a water meter below 100: a hit that takes the
    last life or fills the meter ends the round in the same call. *)
Theorem running_round_is_alive (Math_sin : Q -> Q) (rw rh perf : Q)
    (evs : list Event) :
  let g := run Math_sin evs (initial rw rh perf) in
  running g = true -> (1 <= lives g)%Z /\ waterPercent g < 100.
Proof.
  intros g Hr. exact (inv_alive g (Invariant_reachable _ _ _ _ _) Hr).
Qed.

Lemma running_round_is_alive_witness :
  let g :=
    run noWind
      [EStartRound 720 420 1000; EFrame (frameAt 1016 1700000000000 0.5)]
      (initial 720 420 0) in
  (1 <= lives g)%Z /\ waterPercent g < 100.
Proof.
  intro g.
  exact (running_round_is_alive noWind 720 420 0
           [EStartRound 720 420 1000; EFrame (frameAt 1016 1700000000000 0.5)]
           eq_refl).
Defined.

(** X2. In every state the game reaches, [lives] is between 0 and 5. *)
Theorem lives_between_0_and_5 (Math_sin : Q -> Q) (rw rh perf : Q)
    (evs : list Event) :
  (0 <= lives (run Math_sin evs (initial rw rh perf)) <= 5)%Z.
Proof. exact (inv_lives _ (Invariant_reachable _ _ _ _ _)). Qed.

(** X3. In every state the game reaches, the score is a non-negative
    multiple of 10, [10 * k]; so the coins [endRound] awards are [k / 5]
    rounded down, one for every 50 points, with
    [50 * coins <= score < 50 * coins + 50], and the [Math.max(0, ...)]
    around them never acts. *)
Theorem score_and_coins (Math_sin : Q -> Q) (rw rh perf : Q)
    (evs : list Event) :
  let g := run Math_sin evs (initial rw rh perf) in
  exists k, (0 <= k)%Z /\ score g = (10 * k)%Z
            /\ coins g = (k / 5)%Z
            /\ (50 * coins g <= score g < 50 * coins g + 50)%Z.
Proof.
  intro g.
  destruct (inv_score g (Invariant_reachable _ _ _ _ _)) as (k & Hk & Ek).
  exists k. split; [exact Hk|]. split; [exact Ek|].
  assert (Hd : (score g / 50 = k / 5)%Z).
  { rewrite Ek. replace 50%Z with (10 * 5)%Z by reflexivity.
    rewrite Z.div_mul_cancel_l; lia. }
  assert (Hc : coins g = (k / 5)%Z).
  { unfold coins. rewrite Hd. apply Z.max_r. apply Z.div_pos; lia. }
  split; [exact Hc|]. rewrite Hc, Ek.
  pose proof (Z.div_mod k 5). pose proof (Z.mod_pos_bound k 5). lia.
Qed.

(** X4. In every state the game reaches, [timeLeft] is a whole number of
    seconds between 0 and 30, on every difficulty. *)
Theorem timeLeft_whole_between_0_and_30 (Math_sin : Q -> Q) (rw rh perf : Q)
    (evs : list Event) :
  exists n, (0 <= n <= 30)%Z
            /\ timeLeft (run Math_sin evs (initial rw rh perf)) == inject_Z n.
Proof. exact (inv_time _ (Invariant_reachable _ _ _ _ _)). Qed.

(** X5. In every state the game reaches: the game is paused only during a
    round; the timer handle [timerId] is set exactly while a round is
    running and not paused; and a frame is requested exactly while a round
    is running, paused or not. *)
Theorem flags_agree (Math_sin : Q -> Q) (rw rh perf : Q) (evs : list Event) :
  let g := run Math_sin evs (initial rw rh perf) in
  (paused g = true -> running g = true)
  /\ timerId g = running g && negb (paused g)
  /\ animating g = running g.
Proof.
  intro g. pose proof (Invariant_reachable Math_sin rw rh perf evs) as H.
  split; [exact (inv_paused _ H)|].
  split; [exact (inv_timerId _ H)|exact (inv_animating _ H)].
Qed.

(** ** Timers *)

Lemma hitDrop_timer (i : nat) (d : Drop) (g : Game) :
  (timerId (hitDrop i d g) = timerId g
   /\ intervals (hitDrop i d g) = intervals g)
  \/ (timerId (hitDrop i d g) = false
      /\ intervals (hitDrop i d g)
         = if timerId g then Nat.pred (intervals g) else intervals g).
Proof.
  unfold hitDrop.
  match goal with |- context [checkGameOver ?x] => set (g2 := x) end.
  assert (E : timerId g2 = timerId g /\ intervals g2 = intervals g).
  { unfold g2. simpl. destruct (d_polluted d); [split; reflexivity|].
    match goal with |- timerId (checkMilestones ?x) = _ /\ _ =>
      destruct (checkMilestones_fields x) as (_&_&_&_&_&_&_&Ht&Hi&_) end.
    rewrite Ht, Hi. split; reflexivity. }
  destruct E as [Et Ei]. unfold checkGameOver.
  destruct ((lives g2 <=? 0)%Z || Qle_bool 100 (waterPercent g2)).
  - right. rewrite endRound_eq. cbn [timerId intervals].
    rewrite Et, Ei. split; reflexivity.
  - left. split; assumption.
Qed.

(** X6. An interval whose handle was overwritten is never cleared: no event,
    and so no sequence of events, lowers the number of live intervals that
    [timerId] does not hold; once there is one, a timer callback can fire
    in every later state.  [startRound] on a round that is running and not
    paused (the canvas starts one on Enter or Space) adds such an interval,
    since [startTimer] replaces the handle without clearing it. *)
Theorem leaked_interval_is_never_cleared (Math_sin : Q -> Q) :
  (forall g e,
     (leakedIntervals g <= leakedIntervals (step Math_sin g e))%nat)
  /\ (forall evs g,
        (leakedIntervals g <= leakedIntervals (run Math_sin evs g))%nat)
  /\ (forall evs g,
        (1 <= leakedIntervals g)%nat ->
        intervals (run Math_sin evs g) <> O)
  /\ (forall g rw rh perf s,
        difficultySettings (currentDifficulty g) = Some s ->
        timerId g = true -> (1 <= intervals g)%nat ->
        leakedIntervals (startRound rw rh perf g) = S (leakedIntervals g)).
Proof.
  assert (Hstep : forall g e,
            (leakedIntervals g <= leakedIntervals (step Math_sin g e))%nat).
  { intros g e. unfold leakedIntervals. destruct e; simpl.
    + unfold startRound.
      destruct (difficultySettings (currentDifficulty g)); simpl;
        destruct (timerId g); lia.
    + destruct (animating g); [|lia].
      destruct (loop_control Math_sin f g) as (_&_&_&_&_&Ht&Hi&_).
      rewrite Ht, Hi. lia.
    + destruct (intervals g) as [|n] eqn:Hn; [lia|].
      unfold timerTick. cbn [timeLeft set_timeLeft].
      destruct (Qle_bool (timeLeft g - 1) 0).
      * rewrite endRound_eq. simpl. rewrite Hn.
        destruct (timerId g); simpl; lia.
      * simpl. rewrite Hn. destruct (timerId g); lia.
    + destruct (running g) eqn:Hr.
      * destruct (handlePointer_cases px py g Hr)
          as [[_ ->]|(i & d & _ & _ & ->)]; [lia|].
        destruct (hitDrop_timer i d g) as [[-> ->]|[-> ->]]; [lia|].
        destruct (timerId g); lia.
      * unfold handlePointer. rewrite Hr. simpl. lia.
    + unfold pauseGame. destruct (paused g || negb (running g)); [lia|].
      unfold stopTimer. cbn [timerId intervals set_flags set_timer].
      destruct (timerId g); simpl; lia.
    + unfold resumeGame. destruct (negb (paused g)); simpl; [lia|].
      destruct (timerId g); lia.
    + unfold resetGame, stopTimer. cbn [timerId set_flags].
      destruct (timerId g); simpl; lia.
    + unfold selectDifficulty. simpl.
      destruct (negb (running g)); simpl; [|lia].
      destruct (difficultySettings name); simpl; lia.
    + lia. }
  assert (Hrun : forall evs g,
            (leakedIntervals g <= leakedIntervals (run Math_sin evs g))%nat).
  { induction evs as [|e evs IH]; intro g; simpl; [lia|].
    eapply Nat.le_trans; [apply (Hstep g e)|apply IH]. }
  split; [exact Hstep|]. split; [exact Hrun|]. split.
  - intros evs g H. specialize (Hrun evs g).
    unfold leakedIntervals in Hrun at 2.
    destruct (intervals (run Math_sin evs g)); lia.
  - intros g rw rh perf s Hs Ht Hi. unfold leakedIntervals, startRound.
    rewrite Hs, Ht. simpl. lia.
Qed.

Lemma leaked_interval_is_never_cleared_witness :
  let g := midRound [] 0 3 0 in
  leakedIntervals g = 0%nat
  /\ leakedIntervals (startRound 720 420 9000 g) = 1%nat.
Proof.
  intro g. split; [reflexivity|].
  apply (proj2 (proj2 (proj2 (leaked_interval_is_never_cleared noWind)))
           g 720 420 9000 (mkSettings 650 340 14 1.7 30 3));
    [reflexivity|reflexivity|simpl; lia].
Defined.

(** X26. In every state the game reaches, pausing stops the clock as long
    as no interval has leaked: while [paused] is true and every live
    interval is the handle's, no timer callback runs, so [timeLeft] stands
    still. *)
Theorem pause_stops_the_clock (Math_sin : Q -> Q) (rw rh perf : Q)
    (evs : list Event) :
  let g := run Math_sin evs (initial rw rh perf) in
  paused g = true -> leakedIntervals g = O ->
  intervals g = O /\ step Math_sin g ETimer = g.
Proof.
  intros g Hp Hl.
  pose proof (inv_timerId g (Invariant_reachable _ _ _ _ _)) as Ht.
  rewrite Hp, andb_false_r in Ht.
  unfold leakedIntervals in Hl. rewrite Ht in Hl.
  assert (Hi : intervals g = O) by lia.
  split; [exact Hi|]. simpl. now rewrite Hi.
Qed.

Lemma pause_stops_the_clock_witness :
  let g :=
    run noWind [EStartRound 720 420 1000; ETimer; EPause] (initial 720 420 0) in
  step noWind g ETimer = g.
Proof.
  intro g.
  exact (proj2 (pause_stops_the_clock noWind 720 420 0
                  [EStartRound 720 420 1000; ETimer; EPause]
                  eq_refl eq_refl)).
Defined.

(** ** The drop a tap takes *)

Lemma sortedByY_nth (l : list Drop) (j i : nat) (a b : Drop) :
  sortedByY l -> (j < i)%nat ->
  nth_error l j = Some a -> nth_error l i = Some b -> d_y a <= d_y b.
Proof.
  revert j i. induction l as [|c l IH]; intros j i Hs Hji Ha Hb.
  - destruct j; discriminate.
  - destruct Hs as [Hc Hl]. destruct i as [|i]; [lia|]. simpl in Hb.
    destruct j as [|j]; simpl in Ha.
    + inversion Ha; subst c. apply Hc. eapply nth_error_In; eassumption.
    + apply (IH j i); trivial. lia.
Qed.

(** X7. In every state the game reaches, the drop a tap removes is the
    lowest on the canvas among the drops within reach of the tap: no drop
    that passes the hit test has a greater [y]. *)
Theorem tap_takes_lowest_drop_in_reach (Math_sin : Q -> Q) (rw rh perf : Q)
    (evs : list Event) (px py : Q) (i : nat) (d : Drop) :
  let g := run Math_sin evs (initial rw rh perf) in
  scan px py (drops g) (List.length (drops g)) = Some i ->
  nth_error (drops g) i = Some d ->
  forall d', In d' (drops g) -> hit px py d' = true -> d_y d' <= d_y d.
Proof.
  intros g Hs Hd d' Hin Hh.
  pose proof (inv_sorted g (Invariant_reachable _ _ _ _ _)) as Hso.
  destruct (scan_some _ _ _ _ _ Hs) as (_ & d0 & _ & _ & Habove).
  destruct (In_nth_error _ _ Hin) as [k Hk].
  assert (Hlen : (k < List.length (drops g))%nat).
  { apply nth_error_Some. congruence. }
  destruct (Nat.lt_trichotomy k i) as [Hlt|[->|Hgt]].
  - exact (sortedByY_nth _ _ _ _ _ Hso Hlt Hk Hd).
  - assert (d' = d) by congruence. subst d'. apply Qle_refl.
  - rewrite (Habove k d' (conj Hgt Hlen) Hk) in Hh. discriminate.
Qed.

Lemma tap_takes_lowest_drop_in_reach_witness :
  let g :=
    run noWind
      [EStartRound 720 420 1000; EFrame (frameAt 1016 1700000000000 0.5);
       EFrame (frameAt 2016 1700000001000 0.5)]
      (initial 720 420 0) in
  exists a b,
    nth_error (drops g) 0 = Some a /\ nth_error (drops g) 1 = Some b
    /\ hit 360 (-40) a = true /\ hit 360 (-40) b = true
    /\ d_y a <= d_y b.
Proof.
  intro g.
  destruct (nth_error (drops g) 0) as [a|] eqn:Ha;
    [|vm_compute in Ha; discriminate].
  destruct (nth_error (drops g) 1) as [b|] eqn:Hb;
    [|vm_compute in Hb; discriminate].
  assert (Hina : In a (drops g)) by (eapply nth_error_In; exact Ha).
  assert (Hha : hit 360 (-40) a = true).
  { vm_compute in Ha. inversion Ha. vm_compute. reflexivity. }
  assert (Hhb : hit 360 (-40) b = true).
  { vm_compute in Hb. inversion Hb. vm_compute. reflexivity. }
  assert (Hs : scan 360 (-40) (drops g) (List.length (drops g)) = Some 1%nat)
    by (vm_compute; reflexivity).
  exists a, b.
  split; [reflexivity|]. split; [reflexivity|]. split; [exact Hha|].
  split; [exact Hhb|].
  exact (tap_takes_lowest_drop_in_reach noWind 720 420 0
           [EStartRound 720 420 1000;
            EFrame (frameAt 1016 1700000000000 0.5);
            EFrame (frameAt 2016 1700000001000 0.5)]
           360 (-40) 1 b Hs Hb a Hina Hha).
Defined.

(** ** Milestones *)

(** X8. In every state the game reaches, no milestone is recorded twice in
    [milestonesReached], and while a round is running the recorded
    milestones are exactly the milestones (50, 100, 150) that the score has
    reached. *)
Theorem milestones_recorded_once (Math_sin : Q -> Q) (rw rh perf : Q)
    (evs : list Event) :
  let g := run Math_sin evs (initial rw rh perf) in
  NoDup (milestonesReached g)
  /\ (running g = true ->
      forall m, In m (milestonesReached g)
                <-> In m milestones /\ (m <= score g)%Z).
Proof.
  intro g. pose proof (Invariant_reachable Math_sin rw rh perf evs) as H.
  split; [exact (inv_nodup _ H)|exact (inv_reached _ H)].
Qed.

(** ** Pause and resume *)

(** X9. In every state the game reaches, the pause button (and the [p] key)
    does nothing when no round is running, and otherwise flips [paused].
    Pausing a running round and resuming it brings the game back as it was
    but for two things: [timeLeft] is back at 30, since [resumeGame] calls
    [startTimer], and [lastFrame] is the time of the resume. *)
Theorem pause_resume_resets_timer (Math_sin : Q -> Q) (rw rh perf : Q)
    (evs : list Event) (p1 p2 : Q) :
  let g := run Math_sin evs (initial rw rh perf) in
  (running g = false -> togglePause p1 g = g)
  /\ (running g = true ->
      paused (togglePause p1 g) = negb (paused g)
      /\ running (togglePause p1 g) = true)
  /\ (running g = true -> paused g = false ->
      togglePause p2 (togglePause p1 g)
      = set_lastFrame p2 (set_timeLeft 30 g)).
Proof.
  intro g. pose proof (Invariant_reachable Math_sin rw rh perf evs) as H.
  fold g in H.
  pose proof (inv_paused g H) as Hp.
  pose proof (inv_timerId g H) as Ht.
  pose proof (inv_handle g H) as Hh.
  clearbody g. clear H.
  destruct g as [rn pa ds ls si sc lv w tl ti iv an cd ms lf cw ch].
  simpl in *. split; [|split].
  - intros ->. destruct pa; [discriminate (Hp eq_refl)|reflexivity].
  - intros ->. destruct pa, ti; split; reflexivity.
  - intros -> ->. simpl in Ht. subst ti.
    unfold togglePause, pauseGame, resumeGame, stopTimer, startTimer. simpl.
    destruct iv as [|iv]; [specialize (Hh eq_refl); lia|reflexivity].
Qed.

Lemma pause_resume_resets_timer_witness :
  timeLeft
    (togglePause 14000
       (togglePause 13000
          (run noWind (EStartRound 720 420 1000 :: repeat ETimer 12)
             (initial 720 420 0))))
  = 30.
Proof.
  exact (f_equal timeLeft
           (proj2 (proj2 (pause_resume_resets_timer noWind 720 420 0
                            (EStartRound 720 420 1000 :: repeat ETimer 12)
                            13000 14000))
              eq_refl eq_refl)).
Defined.

(** ** Taps *)

Lemma hit_centre (d : Drop) : 0 < d_size d -> hit (d_x d) (d_y d) d = true.
Proof.
  intro Hs. apply hit_iff.
  assert (Hp : 0 < d_size d * 1.8) by lra.
  split; [exact Hp|].
  assert (E : (d_x d - d_x d) * (d_x d - d_x d)
              + (d_y d - d_y d) * (d_y d - d_y d) == 0) by ring.
  rewrite E. now apply Qmult_lt_0_compat.
Qed.

Lemma handlePointer_length (px py : Q) (g : Game) (d : Drop) :
  running g = true -> In d (drops g) -> hit px py d = true ->
  (List.length (drops (handlePointer px py g)) + 1
   = List.length (drops g))%nat.
Proof.
  intros Hr Hin Hh.
  destruct (handlePointer_cases px py g Hr)
    as [[Hn _]|(i & d0 & Hs & Hd0 & ->)].
  - exfalso. destruct (In_nth_error _ _ Hin) as [k Hk].
    assert (Hlen : (k < List.length (drops g))%nat)
      by (apply nth_error_Some; congruence).
    rewrite (scan_none _ _ _ _ Hn k d Hlen Hk) in Hh. discriminate.
  - destruct (scan_some _ _ _ _ _ Hs) as (Hlt & _).
    assert (Hdrops : drops (hitDrop i d0 g) = splice1 i (drops g)).
    { destruct (d_polluted d0) eqn:Hp.
      - now destruct (hitDrop_polluted i d0 g Hp) as (_ & _ & _ & ->).
      - now destruct (hitDrop_clean i d0 g Hp) as (_ & _ & _ & ->). }
    rewrite Hdrops. now apply splice1_length.
Qed.

(** X10. While a round is running, a tap on the centre of any drop of the
    list that has a positive size removes exactly one drop (that one or one
    of a higher index within reach); a tap within reach of no drop removes
    none. *)
Theorem tap_on_centre_removes_a_drop (g : Game) (d : Drop) :
  running g = true -> In d (drops g) -> 0 < d_size d ->
  (List.length (drops (handlePointer (d_x d) (d_y d) g)) + 1
   = List.length (drops g))%nat
  /\ forall px py,
       (forall e, In e (drops g) -> hit px py e = false) ->
       drops (handlePointer px py g) = drops g.
Proof.
  intros Hr Hin Hs. split.
  - apply (handlePointer_length _ _ g d Hr Hin). now apply hit_centre.
  - intros px py Hno.
    destruct (handlePointer_cases px py g Hr)
      as [[_ ->]|(i & d0 & Hsc & Hd0 & _)]; trivial.
    exfalso. destruct (scan_some _ _ _ _ _ Hsc) as (_ & d1 & Hd1 & Hh & _).
    rewrite (Hno d1) in Hh; [discriminate|].
    eapply nth_error_In; eassumption.
Qed.

Lemma tap_on_centre_removes_a_drop_witness :
  let g := midRound [newerDrop; olderDrop] 0 3 0 in
  (List.length (drops (handlePointer 100 90 g)) + 1 = 2)%nat.
Proof.
  intro g.
  apply (proj1 (tap_on_centre_removes_a_drop g newerDrop eq_refl
                  (or_introl eq_refl) eq_refl)).
Defined.

(** X11. [handlePointer] does not look at [paused]: on a paused round a tap
    removes the same drop and changes the score, the lives and the water
    meter exactly as it would on the same round not paused. *)
Theorem taps_count_while_paused (px py : Q) (g : Game) (b : bool) :
  let gp := set_flags (running g) b g in
  drops (handlePointer px py gp) = drops (handlePointer px py g)
  /\ score (handlePointer px py gp) = score (handlePointer px py g)
  /\ lives (handlePointer px py gp) = lives (handlePointer px py g)
  /\ waterPercent (handlePointer px py gp)
     = waterPercent (handlePointer px py g).
Proof.
  intro gp. destruct (running g) eqn:Hr.
  - assert (Hrp : running gp = true) by reflexivity.
    destruct (handlePointer_cases px py g Hr)
      as [[Hn ->]|(i & d & Hs & Hd & ->)];
      destruct (handlePointer_cases px py gp Hrp)
        as [[Hn' ->]|(i' & d' & Hs' & Hd' & ->)];
      change (drops gp) with (drops g) in *.
    + repeat split.
    + congruence.
    + congruence.
    + assert (i' = i) by congruence. subst i'.
      assert (d' = d) by congruence. subst d'.
      destruct (d_polluted d) eqn:Hp.
      * destruct (hitDrop_polluted i d g Hp) as (-> & -> & -> & ->).
        destruct (hitDrop_polluted i d gp Hp) as (-> & -> & -> & ->).
        repeat split.
      * destruct (hitDrop_clean i d g Hp) as (-> & -> & -> & ->).
        destruct (hitDrop_clean i d gp Hp) as (-> & -> & -> & ->).
        repeat split.
  - unfold handlePointer. unfold gp. simpl. rewrite Hr. simpl.
    repeat split.
Qed.

(** ** Frames *)

Lemma bounce_inside (w : Q) (d : Drop) :
  d_size (bounce w d) = d_size d
  /\ d_y (bounce w d) = d_y d
  /\ d_polluted (bounce w d) = d_polluted d
  /\ d_birth (bounce w d) = d_birth d
  /\ d_x (bounce w d) + d_size d <= w
  /\ (2 * d_size d <= w -> d_size d <= d_x (bounce w d)).
Proof.
  unfold bounce.
  destruct (Qltb (d_x d - d_size d) 0) eqn:E1; cbn [d_x d_size].
  - destruct (Qltb w (d_size d + d_size d)) eqn:E2;
      cbn [d_x d_size d_y d_polluted d_birth].
    + repeat split; try reflexivity; lra.
    + apply Qltb_ge in E2. repeat split; try reflexivity; lra.
  - apply Qltb_ge in E1.
    destruct (Qltb w (d_x d + d_size d)) eqn:E2;
      cbn [d_x d_size d_y d_polluted d_birth].
    + repeat split; try reflexivity; lra.
    + apply Qltb_ge in E2. repeat split; try reflexivity; lra.
Qed.

(** X12. After [update], every drop of the list lies inside the canvas
    horizontally: its right edge [x + size] is at most [canvas._w], and its
    left edge [x - size] is at least 0 whenever the canvas is at least two
    sizes wide. *)
Theorem update_keeps_drops_inside_canvas (Math_sin : Q -> Q) (dt : Q)
    (f : Frame) (g : Game) (d : Drop) :
  In d (drops (update Math_sin dt f g)) ->
  d_x d + d_size d <= canvas_w g
  /\ (2 * d_size d <= canvas_w g -> 0 <= d_x d - d_size d).
Proof.
  intro Hin.
  destruct (update_water_drops Math_sin dt f g) as [Hd _].
  rewrite Hd in Hin. apply in_map_iff in Hin.
  destruct Hin as (d0 & <- & _).
  destruct (bounce_inside (canvas_w g) d0) as (Hs & _ & _ & _ & Hr & Hl).
  rewrite Hs. split; [exact Hr|]. intro H. specialize (Hl H). lra.
Qed.

Lemma update_keeps_drops_inside_canvas_witness :
  let g := midRound [dropAt 715 100 20 false 1000] 0 3 0 in
  match drops (update noWind 0.016 (frameAt 6016 5016 0.5) g) with
  | d :: _ => d_x d + d_size d <= 720
  | [] => False
  end.
Proof.
  intro g.
  destruct (drops (update noWind 0.016 (frameAt 6016 5016 0.5) g))
    as [|d l] eqn:E; [vm_compute in E; discriminate|].
  assert (Hin : In d (drops (update noWind 0.016 (frameAt 6016 5016 0.5) g))).
  { rewrite E. left. reflexivity. }
  exact (proj1 (update_keeps_drops_inside_canvas noWind 0.016
                  (frameAt 6016 5016 0.5) g d Hin)).
Defined.

Lemma insertByY_perm (d : Drop) (l : list Drop) :
  Permutation (d :: l) (insertByY d l).
Proof.
  induction l as [|e l IH]; simpl; [apply Permutation_refl|].
  destruct (Qle_bool (d_y d) (d_y e)); [apply Permutation_refl|].
  eapply Permutation_trans; [apply perm_swap|].
  now apply perm_skip.
Qed.

Lemma sortByY_perm (l : list Drop) : Permutation l (sortByY l).
Proof.
  induction l as [|d l IH]; simpl; [apply perm_nil|].
  eapply Permutation_trans; [apply perm_skip; exact IH|].
  apply insertByY_perm.
Qed.

Lemma drawRipples_length (now : Q) (rs : list Ripple) :
  (List.length (drawRipples now rs) <= List.length rs)%nat.
Proof.
  induction rs as [|r rs IH]; simpl; [lia|].
  destruct (ageRipple now r); simpl; lia.
Qed.

Lemma drawParticleEffects_length (ps : list Particle) :
  (List.length (drawParticleEffects ps) <= List.length ps)%nat.
Proof.
  induction ps as [|q ps IH]; simpl; [lia|].
  destruct (ageParticle q); simpl; lia.
Qed.

(** X13. What [render] changes, on the page.  The drop list after it holds
    the same drops, each as often, in ascending order of [y], and a second
    [render] leaves that list as it is.  [render] never adds a particle or a
    ripple; while no round is running, or the round is paused, it leaves
    [particles] and [ripples] alone, and if the drop list is in order by
    then it changes nothing on the page at all. *)
Theorem render_reorders_drops_and_ages_effects (now perf : Q) (p : Page) :
  let p' := renderPage now perf p in
  Permutation (drops (game p)) (drops (game p'))
  /\ sortedByY (drops (game p'))
  /\ (forall now2 perf2,
        drops (game (renderPage now2 perf2 p')) = drops (game p'))
  /\ (List.length (particles p') <= List.length (particles p))%nat
  /\ (List.length (ripples p') <= List.length (ripples p))%nat
  /\ (running (game p) && negb (paused (game p)) = false ->
      particles p' = particles p /\ ripples p' = ripples p
      /\ (sortedByY (drops (game p)) -> p' = p)).
Proof.
  intro p'. unfold p', renderPage.
  cbn [game particles ripples render running paused set_drops drops].
  split; [apply sortByY_perm|]. split; [apply sortByY_sorted|].
  split.
  { intros now2 perf2.
    apply sortByY_sorted_id. apply sortByY_sorted. }
  split.
  { destruct (running (game p) && negb (paused (game p)));
      [apply drawParticleEffects_length|apply Nat.le_refl]. }
  split.
  { destruct (running (game p) && negb (paused (game p)));
      [apply drawRipples_length|apply Nat.le_refl]. }
  intro Hl. rewrite Hl. split; [reflexivity|]. split; [reflexivity|].
  intro Hs. unfold render. rewrite (sortByY_sorted_id _ Hs).
  destruct p as [g ps rs]. cbn [game particles ripples].
  destruct g. reflexivity.
Qed.

Lemma render_reorders_drops_and_ages_effects_witness :
  let p :=
    mkPage (mkGame true true [newerDrop; olderDrop] 5000 650 0 3 0 20 false 0
              true "normal"%string [] 0 720 420)
      [newParticle 100 100 true 0.5 0.5 0.5] (popEffect 100 100 4000) in
  renderPage 6016 6016 p = p.
Proof.
  intro p.
  apply (render_reorders_drops_and_ages_effects 6016 6016 p);
    [reflexivity|].
  simpl. repeat split; try (intros e [<-|[]]); try (intros e []);
    vm_compute; discriminate.
Defined.

(** X14. A frame adds at most one drop to the list, and adds none when the
    spawn interval has not passed since the last spawn. *)
Theorem frame_adds_at_most_one_drop (Math_sin : Q -> Q) (f : Frame)
    (g : Game) :
  (List.length (drops (loop Math_sin f g)) <= List.length (drops g) + 1)%nat
  /\ (Qltb (spawnInterval g) (f_date f - lastSpawn g) = false ->
      (List.length (drops (loop Math_sin f g)) <= List.length (drops g))%nat).
Proof.
  assert (Hlen : forall dt g0,
            (List.length (drops (update Math_sin dt f g0))
             <= List.length (drops (spawnStep f g0)))%nat).
  { intros dt g0. destruct (update_water_drops Math_sin dt f g0) as [-> _].
    rewrite length_map.
    eapply Nat.le_trans; [apply filter_length_le|].
    rewrite length_map. apply Nat.le_refl. }
  assert (Hloop : (List.length (drops (loop Math_sin f g))
                   <= List.length (drops (spawnStep f g)))%nat).
  { unfold loop, render. cbn [drops set_animating set_drops paused
                                set_lastFrame].
    rewrite <- (Permutation_length (sortByY_perm _)).
    destruct (paused g); cbn [negb].
    - cbn [drops set_lastFrame]. unfold spawnStep.
      destruct (Qltb (spawnInterval g) (f_date f - lastSpawn g));
        [|apply Nat.le_refl].
      unfold spawnDrop. simpl. rewrite length_app. lia.
    - eapply Nat.le_trans; [apply Hlen|].
      unfold spawnStep. simpl.
      destruct (Qltb (spawnInterval g) (f_date f - lastSpawn g));
        apply Nat.le_refl. }
  split.
  - eapply Nat.le_trans; [exact Hloop|]. unfold spawnStep.
    destruct (Qltb (spawnInterval g) (f_date f - lastSpawn g)); [|lia].
    unfold spawnDrop. simpl. rewrite length_app. simpl. lia.
  - intro E. eapply Nat.le_trans; [exact Hloop|]. unfold spawnStep.
    rewrite E. apply Nat.le_refl.
Qed.

Lemma frame_adds_at_most_one_drop_witness :
  let g := midRound [olderDrop] 0 3 0 in
  (List.length (drops (loop noWind (frameAt 6016 5016 0.5) g)) <= 1)%nat.
Proof.
  intro g.
  exact (proj2 (frame_adds_at_most_one_drop noWind (frameAt 6016 5016 0.5) g)
           eq_refl).
Defined.

(** ** Spawning *)

(** X15. In every state the game reaches, [spawnDrop] appends one drop, and
    that drop is polluted exactly when its first random number is below
    [0.08 + (30 - timeLeft) * 0.006], a chance between 8% and 26%: the cap
    of 0.28 in [pollutedChance] is never reached. *)
Theorem polluted_chance_between_8_and_26_percent (Math_sin : Q -> Q)
    (rw rh perf : Q) (evs : list Event) (date : Q) (rnd : nat -> Q) :
  let g := run Math_sin evs (initial rw rh perf) in
  let chance := 0.08 + (30 - timeLeft g) * 0.006 in
  0.08 <= chance /\ chance <= 0.26
  /\ exists d, drops (spawnDrop date rnd g) = drops g ++ [d]
               /\ (d_polluted d = true <-> rnd 0%nat < chance).
Proof.
  intros g chance.
  destruct (inv_time g (Invariant_reachable _ _ _ _ _)) as (n & Hn & Ht).
  assert (H0 : 0 <= timeLeft g).
  { rewrite Ht. change 0 with (inject_Z 0). rewrite <- Zle_Qle. lia. }
  assert (H30 : timeLeft g <= 30).
  { rewrite Ht. change 30 with (inject_Z 30). rewrite <- Zle_Qle. lia. }
  assert (Hlo : 0.08 <= chance) by (unfold chance; lra).
  assert (Hhi : chance <= 0.26) by (unfold chance; lra).
  split; [exact Hlo|]. split; [exact Hhi|].
  eexists. split; [reflexivity|].
  cbn [d_polluted createDrop]. rewrite Qltb_lt. fold chance.
  assert (E : Qmin 0.28 chance == chance) by (apply Q.min_r; lra).
  rewrite E. reflexivity.
Qed.

(** ** The frame gap *)

Lemma Qmin_left (x y : Q) : x <= y -> Qmin x y = x.
Proof.
  intro H. unfold Qmin, GenericMinMax.gmin.
  destruct (x ?= y) eqn:E; trivial.
  exfalso. apply Qgt_alt in E. exact (Qlt_not_le _ _ E H).
Qed.

(** X17. A frame that comes 50 ms or more after the previous one is handled
    exactly like one that comes after 50 ms: [loop] caps the time step at
    0.05 s, so a stalled page does not make the drops jump. *)
Theorem long_frame_gap_counts_as_50_ms (Math_sin : Q -> Q) (f : Frame)
    (g : Game) :
  50 <= f_now f - lastFrame g ->
  loop Math_sin f g = loop Math_sin f (set_lastFrame (f_now f - 50) g).
Proof.
  intro H. unfold loop. cbn [lastFrame set_lastFrame paused].
  assert (E1 : Qmin 0.05 ((f_now f - lastFrame g) / 1000) = 0.05).
  { apply Qmin_left. apply Qle_shift_div_l; lra. }
  assert (E2 : Qmin 0.05 ((f_now f - (f_now f - 50)) / 1000) = 0.05).
  { apply Qmin_left. apply Qle_shift_div_l; lra. }
  rewrite E1, E2. reflexivity.
Qed.

Lemma long_frame_gap_counts_as_50_ms_witness :
  let g := midRound [olderDrop] 0 3 0 in
  loop noWind (frameAt 9000 5016 0.5) g
  = loop noWind (frameAt 9000 5016 0.5) (set_lastFrame (9000 - 50) g).
Proof.
  intro g.
  apply (long_frame_gap_counts_as_50_ms noWind (frameAt 9000 5016 0.5) g).
  vm_compute. discriminate.
Defined.

(** ** The motion of a drop *)

Lemma fadeTrail_spec (l : list TrailPoint) :
  (List.length (fadeTrail l) <= List.length l)%nat
  /\ Forall (fun p => 0.1 <= t_alpha p) (fadeTrail l).
Proof.
  induction l as [|p l [IHl IHf]]; simpl; [split; [lia|constructor]|].
  destruct (Qltb (t_alpha p * 0.9) 0.1) eqn:E; simpl.
  - split; [lia|exact IHf].
  - apply Qltb_ge in E. split; [lia|]. constructor; trivial.
Qed.

(** X18. One step of a drop's motion, with a time step that is not negative
    and a speed, gravity and drag that are not negative: the drop does not
    move up and its speed stays non-negative; its size, its [polluted] flag
    and its birth time are unchanged; its trail holds at most three points
    when it held at most three before, each of opacity 0.1 or more; and a
    polluted drop with no trail gets none. *)
Theorem drop_motion (Math_sin : Q -> Q) (dt date : Q) (d : Drop) :
  0 <= dt -> 0 <= d_speed d -> 0 <= d_gravity d -> 0 <= d_drag d ->
  let d' := moveDrop Math_sin dt date d in
  d_y d <= d_y d' /\ 0 <= d_speed d'
  /\ d_size d' = d_size d /\ d_polluted d' = d_polluted d
  /\ d_birth d' = d_birth d
  /\ ((List.length (d_trail d) <= 3)%nat ->
      (List.length (d_trail d') <= 3)%nat)
  /\ Forall (fun p => 0.1 <= t_alpha p) (d_trail d')
  /\ (d_polluted d = true -> d_trail d = [] -> d_trail d' = []).
Proof.
  intros Hdt Hs Hg Hdr d'.
  assert (Hsp : 0 <= d_speed d').
  { unfold d', moveDrop. cbn [d_speed].
    apply Qmult_le_0_compat; [|exact Hdr].
    assert (0 <= d_gravity d * dt) by (apply Qmult_le_0_compat; assumption).
    lra. }
  split.
  { assert (E : d_y d' = d_y d + d_speed d' * dt) by reflexivity.
    assert (0 <= d_speed d' * dt) by (apply Qmult_le_0_compat; assumption).
    rewrite E. lra. }
  split; [exact Hsp|]. split; [reflexivity|]. split; [reflexivity|].
  split; [reflexivity|].
  unfold d', moveDrop. cbn [d_trail].
  split; [|split].
  - intro Hlen.
    match goal with |- (List.length (fadeTrail ?t) <= 3)%nat =>
      destruct (fadeTrail_spec t) as [Hle _];
      eapply Nat.le_trans; [exact Hle|] end.
    destruct (negb (d_polluted d) && (List.length (d_trail d) <? 3)%nat)
      eqn:E; [|exact Hlen].
    apply andb_true_iff in E. destruct E as [_ E].
    apply Nat.ltb_lt in E. rewrite length_app. simpl. lia.
  - match goal with |- Forall _ (fadeTrail ?t) =>
      exact (proj2 (fadeTrail_spec t)) end.
  - intros Hp Ht. rewrite Hp, Ht. reflexivity.
Qed.

Lemma drop_motion_witness :
  d_y olderDrop <= d_y (moveDrop noWind 0.016 5016 olderDrop).
Proof.
  apply (drop_motion noWind 0.016 5016 olderDrop); vm_compute; discriminate.
Defined.

(** ** What the player sees *)

(** X19. In every state the game reaches, the water [drawWaterLevel] paints
    stays inside the jerry can: nothing is painted when the meter is at 0,
    and otherwise the painted rectangle spans the width of the can's
    interior, stands on its bottom, is 0.7 pixel high per percentage point
    (70 at most) and does not rise above its top. *)
Theorem water_stays_inside_the_can (Math_sin : Q -> Q) (rw rh perf : Q)
    (evs : list Event) :
  let g := run Math_sin evs (initial rw rh perf) in
  let clip := waterClip g in
  match drawWaterLevel g with
  | None => waterPercent g == 0
  | Some r =>
      0 < waterPercent g
      /\ r_x r = r_x clip /\ r_w r = r_w clip
      /\ r_y r + r_h r == r_y clip + r_h clip
      /\ r_h r == 0.7 * waterPercent g
      /\ 0 < r_h r /\ r_h r <= 70
      /\ r_y clip <= r_y r
  end.
Proof.
  intros g clip.
  destruct (inv_water g (Invariant_reachable _ _ _ _ _)) as [H0 H1].
  unfold drawWaterLevel.
  destruct (Qle_bool (waterPercent g) 0) eqn:E.
  - apply Qle_bool_iff in E. lra.
  - apply Qle_bool_false in E.
    assert (Eh : (canH - 10) * (waterPercent g / 100)
                 == 0.7 * waterPercent g).
    { unfold canH. field. }
    unfold clip, waterClip. cbn [r_x r_y r_w r_h]. rewrite Eh.
    unfold canH. repeat split; try reflexivity; lra.
Qed.

Lemma Math_round_near (w : Q) :
  inject_Z (Math_round w) <= w + 0.5 /\ w - 0.5 < inject_Z (Math_round w).
Proof.
  unfold Math_round. split.
  - apply Qfloor_le.
  - pose proof (Qlt_floor (w + 0.5)) as H.
    rewrite inject_Z_plus in H. change (inject_Z 1) with 1 in H. lra.
Qed.

Lemma resetUI_bounds (g : Game) :
  Invariant g ->
  (0 <= ui_barPercent (resetUI g) <= 100)%Z
  /\ inject_Z (ui_barPercent (resetUI g)) <= waterPercent g + 0.5
  /\ waterPercent g - 0.5 < inject_Z (ui_barPercent (resetUI g))
  /\ inject_Z (ui_timer (resetUI g)) == timeLeft g
  /\ (0 <= ui_timer (resetUI g) <= 30)%Z
  /\ (0 <= ui_lives (resetUI g) <= 5)%Z
  /\ (0 <= ui_score (resetUI g))%Z.
Proof.
  intro H.
  destruct (inv_water g H) as [H0 H1].
  destruct (inv_time g H) as (n & Hn & Ht).
  destruct (inv_score g H) as (k & Hk & Ek).
  destruct (Math_round_near (waterPercent g)) as [Hup Hdn].
  unfold resetUI. cbn [ui_barPercent ui_timer ui_lives ui_score].
  split.
  { unfold Math_round. split.
    - change 0%Z with (Qfloor 0.5). apply Qfloor_resp_le. lra.
    - change 100%Z with (Qfloor 100.5). apply Qfloor_resp_le. lra. }
  split; [exact Hup|]. split; [exact Hdn|].
  assert (Ec : Math_ceil (timeLeft g) = n).
  { unfold Math_ceil. rewrite Ht. apply Qceiling_Z. }
  rewrite Ec. replace (Z.max 0 n) with n by lia.
  split; [now rewrite Ht|]. split; [exact Hn|].
  split; [exact (inv_lives g H)|lia].
Qed.

(** The states in which [resetUI] is called are states of the handlers. *)
Lemma startRound_after_resetUI (rw rh perf : Q) (g : Game) :
  startRound rw rh perf g
  = match startRoundAtResetUI g with
    | Some m =>
        set_animating true
          (set_lastFrame perf (startTimer (setupCanvas rw rh m)))
    | None => g
    end.
Proof.
  unfold startRound, startRoundAtResetUI.
  destruct (difficultySettings (currentDifficulty g)); reflexivity.
Qed.

Lemma hitDrop_after_resetUI (i : nat) (d : Drop) (g : Game) :
  hitDrop i d g = checkGameOver (hitDropAtResetUI i d g).
Proof. reflexivity. Qed.

Lemma resetGame_after_resetUI (rw rh : Q) (g : Game) :
  resetGame rw rh g
  = setupCanvas rw rh (set_animating false (resetGameAtResetUI g)).
Proof. reflexivity. Qed.

(** X20. In every state the game reaches, whatever event comes next, each
    call of [resetUI] made while that event is handled shows a bar width
    that is a whole percentage between 0 and 100, lives between 0 and 5, a
    score that is not negative and a timer that is a whole number of
    seconds between 0 and 45.  The timer shown is at most 30 except in the
    call [startRound] makes: that one comes after
    [timeLeft = settings.roundTime] and before [startTimer()], and shows
    the difficulty's [roundTime] (45 on easy), although the round then
    starts with [timeLeft = 30]. *)
Theorem resetUI_calls_within_bounds (Math_sin : Q -> Q) (rw rh perf : Q)
    (evs : list Event) (e : Event) (u : Display) :
  let g := run Math_sin evs (initial rw rh perf) in
  In u (resetUICalls g e) ->
  (0 <= ui_barPercent u <= 100)%Z
  /\ (0 <= ui_lives u <= 5)%Z
  /\ (0 <= ui_score u)%Z
  /\ (0 <= ui_timer u <= 45)%Z
  /\ ((forall rw' rh' perf', e <> EStartRound rw' rh' perf') ->
      (ui_timer u <= 30)%Z)
  /\ (forall rw' rh' perf' s,
        e = EStartRound rw' rh' perf' ->
        difficultySettings (currentDifficulty g) = Some s ->
        inject_Z (ui_timer u) == c_roundTime s
        /\ timeLeft (step Math_sin g e) = 30).
Proof.
  intros g Hin.
  pose proof (Invariant_reachable Math_sin rw rh perf evs) as H.
  fold g in H. clearbody g.
  assert (Hinv : forall m, Invariant m -> u = resetUI m ->
            (0 <= ui_barPercent u <= 100)%Z
            /\ (0 <= ui_lives u <= 5)%Z
            /\ (0 <= ui_score u)%Z
            /\ (0 <= ui_timer u <= 45)%Z
            /\ (ui_timer u <= 30)%Z).
  { intros m Hm ->.
    destruct (resetUI_bounds m Hm) as (Hb & _ & _ & _ & Ht & Hl & Hs).
    repeat split; try apply Hb; try apply Hl; try apply Hs; lia. }
  destruct e; cbn [resetUICalls] in Hin.
  - (* startRound *)
    unfold startRoundAtResetUI in Hin.
    destruct (difficultySettings (currentDifficulty g)) as [s|] eqn:Hs;
      [|destruct Hin].
    destruct Hin as [<-|[]].
    assert (Hu : (0 <= Math_round 0 <= 100)%Z) by (vm_compute; split;
      discriminate).
    destruct (difficultySettings_cases _ _ Hs) as [->|[->| ->]];
      (split; [exact Hu|]);
      (split; [simpl; lia|]);
      (split; [simpl; lia|]);
      (split; [vm_compute; split; discriminate|]);
      (split; [intro Hne; exfalso; exact (Hne rw0 rh0 perf0 eq_refl)|]);
      intros rw' rh' perf' s' _ Hs'; inversion Hs'; subst s';
      (split; [vm_compute; reflexivity|]);
      simpl; unfold startRound; rewrite Hs; reflexivity.
  - destruct Hin.
  - (* timer callback *)
    destruct (intervals g) eqn:Hi; [destruct Hin|].
    destruct Hin as [Hu|[]].
    destruct (Hinv (timerTick g) (Invariant_timerTick g H) (eq_sym Hu))
      as (Hb & Hl & Hs & Ht & Ht30).
    repeat split; intros; trivial; try lia; congruence.
  - (* tap *)
    destruct (running g) eqn:Hr; cbn [negb] in Hin; [|destruct Hin].
    destruct (scan px py (drops g) (List.length (drops g))) as [i|];
      [|destruct Hin].
    destruct (nth_error (drops g) i) as [d|]; [|destruct Hin].
    destruct Hin as [Hu|[]].
    assert (E : resetUI (hitDropAtResetUI i d g) = resetUI (hitDrop i d g)).
    { rewrite hitDrop_after_resetUI.
      destruct (checkGameOver_fields (hitDropAtResetUI i d g))
        as (Hw & _ & Hs & Hl & Ht).
      unfold resetUI. rewrite Hw, Hs, Hl, Ht. reflexivity. }
    rewrite E in Hu.
    destruct (Hinv (hitDrop i d g) (Invariant_hitDrop i d g Hr H)
                (eq_sym Hu)) as (Hb & Hl & Hs & Ht & Ht30).
    repeat split; intros; trivial; try lia; congruence.
  - destruct Hin.
  - destruct Hin.
  - (* reset *)
    destruct Hin as [<-|[]].
    unfold resetGameAtResetUI, stopTimer. cbn [timerId set_flags].
    destruct (timerId g);
      (repeat split; intros; try congruence; vm_compute; congruence).
  - (* a difficulty button *)
    destruct (negb (running g)); [|destruct Hin].
    destruct (difficultySettings name) eqn:Hn; [|destruct Hin].
    destruct Hin as [Hu|[]].
    destruct (Hinv (selectDifficulty name g)
                (Invariant_selectDifficulty name g H) (eq_sym Hu))
      as (Hb & Hl & Hs & Ht & Ht30).
    repeat split; intros; trivial; try lia; congruence.
  - destruct Hin.
Qed.

Lemma resetUI_calls_within_bounds_witness :
  let u := mkDisplay 0 5 0 45 in
  (0 <= ui_timer u <= 45)%Z /\ inject_Z (ui_timer u) == 45.
Proof.
  intro u.
  assert (Hin : In u (resetUICalls
                       (run noWind [EDifficulty "easy"] (initial 720 420 0))
                       (EStartRound 720 420 1000))).
  { vm_compute. left. reflexivity. }
  destruct (resetUI_calls_within_bounds noWind 720 420 0
              [EDifficulty "easy"] (EStartRound 720 420 1000) u Hin)
    as (_ & _ & _ & Ht & _ & Hs).
  split; [exact Ht|].
  exact (proj1 (Hs 720 420 1000 (mkSettings 950 520 10 1.3 45 5)
                  eq_refl eq_refl)).
Defined.

(** X21. In every state the game reaches, when an event ends a running
    round: if it is a timer callback, the results are titled
    "Round Complete"; if it is a tap on a polluted drop, the last life is
    gone and the title is "Round Complete"; if it is a tap on a clean drop,
    the water meter is exactly 100 and the title is "Well Built!".  A clean
    tap ends a round only by filling the meter. *)
Theorem title_tells_how_the_round_ended (Math_sin : Q -> Q) (rw rh perf : Q)
    (evs : list Event) (e : Event) :
  let g := run Math_sin evs (initial rw rh perf) in
  let g' := step Math_sin g e in
  running g = true -> running g' = false ->
  (e = ETimer -> resultsTitle g' = "Round Complete"%string)
  /\ (forall px py i d,
        e = EPointer px py ->
        scan px py (drops g) (List.length (drops g)) = Some i ->
        nth_error (drops g) i = Some d ->
        (d_polluted d = true ->
         lives g' = 0%Z /\ resultsTitle g' = "Round Complete"%string)
        /\ (d_polluted d = false ->
            waterPercent g' = 100
            /\ resultsTitle g' = "Well Built!"%string)).
Proof.
  intros g g' Hr Hend.
  pose proof (Invariant_reachable Math_sin rw rh perf evs) as H.
  fold g in H.
  destruct (inv_alive g H Hr) as [Hlv Hw].
  destruct (inv_water g H) as [Hw0 _].
  split.
  - intros ->. unfold g'. simpl. destruct (intervals g); unfold resultsTitle.
    + apply Qle_bool_false in Hw. now rewrite Hw.
    + destruct (timerTick_fields g) as (-> & _).
      apply Qle_bool_false in Hw. now rewrite Hw.
  - intros px py i d -> Hs Hd.
    assert (E : g' = hitDrop i d g).
    { unfold g'. simpl. unfold handlePointer. rewrite Hr, Hs, Hd.
      reflexivity. }
    rewrite E in Hend |- *. rewrite hitDrop_running, Hr in Hend.
    destruct ((lives (hitDrop i d g) <=? 0)%Z
              || Qle_bool 100 (waterPercent (hitDrop i d g))) eqn:T;
      [|discriminate].
    apply game_over_test in T. unfold resultsTitle. split; intro Hp.
    + destruct (hitDrop_polluted i d g Hp) as (Ew & _ & El & _).
      rewrite Ew, El in *.
      assert (Hlt : Qmax 0 (waterPercent g - 10) < 100).
      { apply Q.max_lub_lt; lra. }
      destruct T as [T|T]; [|exfalso; exact (Qlt_not_le _ _ Hlt T)].
      split; [lia|]. apply Qle_bool_false in Hlt. now rewrite Hlt.
    + destruct (hitDrop_clean i d g Hp) as (Ew & _ & El & _).
      rewrite Ew, El in *.
      destruct T as [T|T]; [lia|].
      assert (Hfull : 100 <= waterPercent g + 6).
      { destruct (Q.min_spec 100 (waterPercent g + 6)) as [[Hc Em]|[Hc Em]];
          rewrite Em in T; lra. }
      rewrite (Qmin_left _ _ Hfull). split; reflexivity.
Qed.

Lemma title_tells_how_the_round_ended_witness :
  resultsTitle
    (step noWind
       (run noWind (EStartRound 720 420 1000 :: repeat ETimer 29)
          (initial 720 420 0)) ETimer)
  = "Round Complete"%string.
Proof.
  assert (Hr : running
                 (run noWind (EStartRound 720 420 1000 :: repeat ETimer 29)
                    (initial 720 420 0)) = true)
    by (vm_compute; reflexivity).
  assert (He : running
                 (step noWind
                    (run noWind
                       (EStartRound 720 420 1000 :: repeat ETimer 29)
                       (initial 720 420 0)) ETimer) = false)
    by (vm_compute; reflexivity).
  exact (proj1 (title_tells_how_the_round_ended noWind 720 420 0
                  (EStartRound 720 420 1000 :: repeat ETimer 29) ETimer
                  Hr He) eq_refl).
Defined.

(** ** Particles and ripples *)

Lemma inject_nat_succ (n : nat) :
  inject_Z (Z.of_nat (S n)) == inject_Z (Z.of_nat n) + 1.
Proof.
  rewrite Nat2Z.inj_succ. unfold Z.succ. rewrite inject_Z_plus. reflexivity.
Qed.

Lemma ageParticle_some (p : Particle) :
  0 < p_life p - 0.016 ->
  exists q, ageParticle p = Some q /\ p_life q = p_life p - 0.016
            /\ p_maxLife q = p_maxLife p.
Proof.
  intro H. unfold ageParticle. cbn [p_life].
  apply Qle_bool_false in H. rewrite H.
  eexists. split; [reflexivity|]. split; reflexivity.
Qed.

Lemma ageParticle_none (p : Particle) :
  p_life p - 0.016 <= 0 -> ageParticle p = None.
Proof.
  intro H. unfold ageParticle. cbn [p_life].
  apply Qle_bool_iff in H. now rewrite H.
Qed.

Lemma particle_alive (n : nat) (p : Particle) :
  0 < p_life p - 0.016 * inject_Z (Z.of_nat n) ->
  exists q, Nat.iter n drawParticleEffects [p] = [q]
            /\ p_life q == p_life p - 0.016 * inject_Z (Z.of_nat n)
            /\ p_maxLife q = p_maxLife p.
Proof.
  induction n as [|n IH]; intro H.
  - exists p. split; [reflexivity|]. split; [|reflexivity].
    change (inject_Z (Z.of_nat 0)) with 0. ring.
  - rewrite inject_nat_succ in H.
    destruct IH as (q & Hq & Hl & Hm); [lra|].
    destruct (ageParticle_some q) as (q' & Ha & Hl' & Hm'); [lra|].
    exists q'. rewrite Nat.iter_succ, Hq. cbn [drawParticleEffects].
    rewrite Ha.
    split; [reflexivity|]. split; [|congruence].
    rewrite Hl', Hl, inject_nat_succ. ring.
Qed.

Lemma particle_dead (n : nat) (p : Particle) :
  0 < p_life p ->
  p_life p - 0.016 * inject_Z (Z.of_nat n) <= 0 ->
  Nat.iter n drawParticleEffects [p] = [].
Proof.
  intro Hpos. induction n as [|n IH]; intro H.
  - change (inject_Z (Z.of_nat 0)) with 0 in H. lra.
  - rewrite Nat.iter_succ.
    destruct (Qlt_le_dec 0 (p_life p - 0.016 * inject_Z (Z.of_nat n)))
      as [Halive|Hdead].
    + destruct (particle_alive n p Halive) as (q & -> & Hl & _).
      cbn [drawParticleEffects]. rewrite ageParticle_none; trivial.
      rewrite inject_nat_succ in H. lra.
    + rewrite (IH Hdead). reflexivity.
Qed.

(** X22. A particle made by [addParticle] is kept by the first 62 calls of
    [drawParticleEffects] and removed by the 63rd: its [life] starts at 1
    and loses 0.016 per call.  No call makes the particle list longer, and
    every particle a call keeps has a positive [life]. *)
Theorem particle_lives_62_frames :
  (forall x y positive r1 r2 r3 n,
     Nat.iter n drawParticleEffects [newParticle x y positive r1 r2 r3] = []
     <-> (63 <= n)%nat)
  /\ (forall ps,
        (List.length (drawParticleEffects ps) <= List.length ps)%nat
        /\ Forall (fun p => 0 < p_life p) (drawParticleEffects ps)).
Proof.
  split.
  - intros x y positive r1 r2 r3 n.
    set (p := newParticle x y positive r1 r2 r3).
    assert (Hl : p_life p = 1.0) by reflexivity.
    split.
    + intro He. destruct (Nat.le_gt_cases 63 n) as [H|H]; trivial.
      exfalso.
      assert (Hq : inject_Z (Z.of_nat n) <= inject_Z 62).
      { rewrite <- Zle_Qle. lia. }
      change (inject_Z 62) with 62 in Hq.
      destruct (particle_alive n p) as (q & Hq' & _); [rewrite Hl; lra|].
      rewrite Hq' in He. discriminate.
    + intro H. apply particle_dead; [rewrite Hl; lra|].
      assert (Hq : inject_Z 63 <= inject_Z (Z.of_nat n)).
      { rewrite <- Zle_Qle. lia. }
      change (inject_Z 63) with 63 in Hq. rewrite Hl. lra.
  - induction ps as [|p ps [IHl IHf]]; simpl; [split; [lia|constructor]|].
    destruct (ageParticle p) as [q|] eqn:E; simpl.
    + split; [lia|]. constructor; trivial.
      unfold ageParticle in E.
      match type of E with (if Qle_bool ?a 0 then _ else _) = _ =>
        destruct (Qle_bool a 0) eqn:T; [discriminate|] end.
      inversion E; subst q. cbn [p_life] in *.
      now apply Qle_bool_false in T.
    + split; [lia|exact IHf].
Qed.

(** X23. A ripple whose [maxRadius] is positive, as those of [popEffect]
    are: [drawRipples] leaves it alone until its delay has passed; after
    that it removes it exactly when [t * 120] has reached [maxRadius], [t]
    the seconds since the delay; and a ripple it keeps has the radius
    [t * 120], below [maxRadius], and an opacity above 0 and at most 1. *)
Theorem ripple_ends_at_full_radius (now : Q) (r : Ripple) :
  0 < rp_maxRadius r ->
  let t := (now - rp_startedAt r) / 1000 - rp_delay r in
  (t < 0 -> ageRipple now r = Some r)
  /\ (0 <= t -> (ageRipple now r = None <-> rp_maxRadius r <= t * 120))
  /\ (forall r', 0 <= t -> ageRipple now r = Some r' ->
        rp_radius r' == t * 120
        /\ 0 <= rp_radius r' /\ rp_radius r' < rp_maxRadius r
        /\ 0 < rp_alpha r' /\ rp_alpha r' <= 1
        /\ rp_maxRadius r' = rp_maxRadius r)
  /\ (forall x y perf r0, In r0 (popEffect x y perf) -> 0 < rp_maxRadius r0).
Proof.
  intros Hm t.
  assert (Hne : ~ rp_maxRadius r == 0) by lra.
  assert (Hfull : forall rad, rad == rp_maxRadius r ->
                              1 - rad / rp_maxRadius r <= 0).
  { intros rad E. rewrite E.
    assert (E1 : rp_maxRadius r / rp_maxRadius r == 1) by (field; exact Hne).
    rewrite E1. lra. }
  assert (Hpart : forall rad, 0 <= rad -> rad < rp_maxRadius r ->
                              0 < 1 - rad / rp_maxRadius r
                              /\ 1 - rad / rp_maxRadius r <= 1).
  { intros rad H0 H1.
    assert (rad / rp_maxRadius r < 1) by (apply Qlt_shift_div_r; lra).
    assert (0 <= rad / rp_maxRadius r) by (apply Qle_shift_div_l; lra).
    split; lra. }
  unfold ageRipple. fold t.
  split; [|split; [|split]].
  - intro Ht. apply Qltb_lt in Ht. now rewrite Ht.
  - intro Ht. apply Qltb_ge in Ht. rewrite Ht.
    destruct (Q.min_spec (rp_maxRadius r) (t * 120)) as [[Hc Em]|[Hc Em]].
    + specialize (Hfull _ Em). apply Qle_bool_iff in Hfull. rewrite Hfull.
      split; [intros _; lra|reflexivity].
    + destruct (Qlt_le_dec (t * 120) (rp_maxRadius r)) as [Hlt|Hge].
      * apply Qltb_ge in Ht.
        destruct (Hpart (Qmin (rp_maxRadius r) (t * 120))) as [Hp _];
          [rewrite Em; lra|rewrite Em; exact Hlt|].
        apply Qle_bool_false in Hp. rewrite Hp.
        split; [discriminate|]. intro H. exfalso.
        exact (Qlt_not_le _ _ Hlt H).
      * assert (E : Qmin (rp_maxRadius r) (t * 120) == rp_maxRadius r)
          by (rewrite Em; lra).
        specialize (Hfull _ E). apply Qle_bool_iff in Hfull. rewrite Hfull.
        split; [intros _; exact Hge|reflexivity].
  - intros r' Ht Hs. pose proof Ht as Ht'. apply Qltb_ge in Ht'.
    rewrite Ht' in Hs.
    match type of Hs with (if Qle_bool ?a 0 then _ else _) = _ =>
      destruct (Qle_bool a 0) eqn:T; [discriminate|] end.
    apply Qle_bool_false in T. inversion Hs; subst r'; clear Hs.
    cbn [rp_radius rp_alpha rp_maxRadius].
    destruct (Q.min_spec (rp_maxRadius r) (t * 120)) as [[Hc Em]|[Hc Em]].
    + exfalso. specialize (Hfull _ Em). lra.
    + destruct (Qlt_le_dec (t * 120) (rp_maxRadius r)) as [Hlt|Hge].
      * destruct (Hpart (Qmin (rp_maxRadius r) (t * 120))) as [Hp Hp'];
          [rewrite Em; lra|rewrite Em; exact Hlt|].
        rewrite Em at 1 2 3.
        repeat split; trivial; lra.
      * exfalso.
        assert (E : Qmin (rp_maxRadius r) (t * 120) == rp_maxRadius r)
          by (rewrite Em; lra).
        specialize (Hfull _ E). lra.
  - intros x y perf r0 [<-|[<-|[<-|[]]]]; reflexivity.
Qed.

Lemma ripple_ends_at_full_radius_witness :
  ageRipple 1300 (mkRipple 100 100 0 28 1 0 1000) = None.
Proof.
  apply (proj1 (proj2 (ripple_ends_at_full_radius 1300
                         (mkRipple 100 100 0 28 1 0 1000) eq_refl)));
    vm_compute; discriminate.
Defined.

(** ** The spawn interval, over a whole session *)

Lemma checkMilestones_fold_spawnInterval (ms : list Z) (g : Game) :
  spawnInterval
    (fold_left
       (fun acc m =>
          if (m <=? score acc)%Z
             && negb (existsb (Z.eqb m) (milestonesReached acc))
          then set_milestonesReached (milestonesReached acc ++ [m]) acc
          else acc) ms g)
  = spawnInterval g.
Proof.
  revert g. induction ms as [|m ms IH]; intro g; simpl; trivial.
  rewrite IH.
  destruct ((m <=? score g)%Z
            && negb (existsb (Z.eqb m) (milestonesReached g))); reflexivity.
Qed.

Lemma handlePointer_spawnInterval (px py : Q) (g : Game) :
  spawnInterval (handlePointer px py g) = spawnInterval g.
Proof.
  unfold handlePointer. destruct (negb (running g)); trivial.
  destruct (scan px py (drops g) (List.length (drops g))); trivial.
  destruct (nth_error (drops g) n); trivial.
  unfold hitDrop, checkGameOver.
  match goal with |- context [if ?c then endRound ?x else _] =>
    destruct c; [rewrite endRound_eq|] end;
    cbn [spawnInterval set_drops];
    (destruct (d_polluted d); [reflexivity|]);
    exact (checkMilestones_fold_spawnInterval milestones _).
Qed.

Lemma spawnStep_bounds (f : Frame) (g : Game) :
  0 <= timeLeft g -> timeLeft g <= 30 ->
  220 <= spawnInterval g /\ spawnInterval g <= 950 ->
  220 <= spawnInterval (spawnStep f g)
  /\ spawnInterval (spawnStep f g) <= 950.
Proof.
  intros H0 H30 Hb. unfold spawnStep.
  destruct (Qltb (spawnInterval g) (f_date f - lastSpawn g)); [|exact Hb].
  cbn [spawnInterval set_spawn spawnDrop currentDifficulty set_drops
       timeLeft].
  destruct (difficultySettings (currentDifficulty g)) as [s|] eqn:Hs.
  - destruct (difficultySettings_cases _ _ Hs) as [->|[->| ->]];
      simpl;
      (split; [eapply Qle_trans; [|apply Q.le_max_l]; lra
              |apply Q.max_lub; lra]).
  - cbn [option_map orDefault].
    split; [eapply Qle_trans; [|apply Q.le_max_l]; lra
           |apply Q.max_lub; lra].
Qed.

(** X24. In every state the game reaches, [spawnInterval] is between 220
    and 950 milliseconds, whatever the difficulty was or has become: drops
    never spawn more often than every 220 ms. *)
Theorem spawnInterval_between_220_and_950 (Math_sin : Q -> Q)
    (rw rh perf : Q) (evs : list Event) :
  let g := run Math_sin evs (initial rw rh perf) in
  220 <= spawnInterval g /\ spawnInterval g <= 950.
Proof.
  assert (Hstep : forall g e,
            Invariant g ->
            220 <= spawnInterval g /\ spawnInterval g <= 950 ->
            220 <= spawnInterval (step Math_sin g e)
            /\ spawnInterval (step Math_sin g e) <= 950).
  { intros g e Hi Hb.
    destruct (inv_time g Hi) as (n & Hn & Ht).
    assert (H0 : 0 <= timeLeft g).
    { rewrite Ht. change 0 with (inject_Z 0). rewrite <- Zle_Qle. lia. }
    assert (H30 : timeLeft g <= 30).
    { rewrite Ht. change 30 with (inject_Z 30). rewrite <- Zle_Qle. lia. }
    destruct e; simpl.
    - unfold startRound.
      destruct (difficultySettings (currentDifficulty g)) as [s|] eqn:Hs;
        [|exact Hb].
      simpl.
      destruct (difficultySettings_cases _ _ Hs) as [->|[->| ->]];
        simpl; split; lra.
    - destruct (animating g); [|exact Hb].
      unfold loop, render.
      cbn [spawnInterval set_animating set_drops paused set_lastFrame].
      destruct (paused g); cbn [negb]; [exact Hb|].
      destruct (update_fields Math_sin
                  (Qmin 0.05 ((f_now f - lastFrame g) / 1000)) f
                  (set_lastFrame (f_now f) g)) as (_&_&_&_&_&_&->).
      apply (spawnStep_bounds f (set_lastFrame (f_now f) g)); assumption.
    - destruct (intervals g); [exact Hb|].
      unfold timerTick. cbn [timeLeft set_timeLeft].
      destruct (Qle_bool (timeLeft g - 1) 0);
        [rewrite endRound_eq|]; exact Hb.
    - rewrite handlePointer_spawnInterval. exact Hb.
    - unfold pauseGame, stopTimer.
      destruct (paused g || negb (running g)); [exact Hb|].
      cbn [timerId set_flags]. destruct (timerId g); exact Hb.
    - unfold resumeGame. destruct (negb (paused g)); exact Hb.
    - unfold resetGame, stopTimer. cbn [timerId set_flags].
      destruct (timerId g); exact Hb.
    - unfold selectDifficulty. simpl.
      destruct (negb (running g)); [|exact Hb].
      destruct (difficultySettings name); exact Hb.
    - exact Hb. }
  assert (Hrun : forall evs0 g,
            Invariant g ->
            220 <= spawnInterval g /\ spawnInterval g <= 950 ->
            220 <= spawnInterval (run Math_sin evs0 g)
            /\ spawnInterval (run Math_sin evs0 g) <= 950).
  { induction evs0 as [|e evs0 IH]; intros g Hi Hb; simpl; trivial.
    apply IH; [now apply Invariant_step|now apply Hstep]. }
  intro g. apply Hrun; [apply Invariant_initial|].
  simpl. split; lra.
Qed.

(** ** A new round *)

Lemma startRound_same_result (rw rh perf : Q) (g1 g2 : Game) :
  difficultySettings (currentDifficulty g1) <> None ->
  currentDifficulty g1 = currentDifficulty g2 ->
  intervals g1 = intervals g2 ->
  startRound rw rh perf g1 = startRound rw rh perf g2.
Proof.
  destruct g1 as [rn1 pa1 ds1 ls1 si1 sc1 lv1 w1 tl1 ti1 iv1 an1 cd1 ms1 lf1
                  cw1 ch1].
  destruct g2 as [rn2 pa2 ds2 ls2 si2 sc2 lv2 w2 tl2 ti2 iv2 an2 cd2 ms2 lf2
                  cw2 ch2].
  cbn [currentDifficulty intervals]. intros Hk <- <-.
  unfold startRound. cbn [currentDifficulty].
  destruct (difficultySettings cd1) as [s|]; [reflexivity|congruence].
Qed.

(** X25. What [startRound] resets, on the page.  With a difficulty that is a
    key of [difficultySettings], the globals [running], [paused], [drops],
    [lastSpawn], [spawnInterval], [score], [lives], [waterPercent],
    [timeLeft], [timerId], [milestonesReached], [lastFrame], the requested
    frame and the canvas size after [startRound] depend on the page it
    starts from only through [currentDifficulty] and the count of live
    intervals: of these the previous round leaves no trace.  The lists
    [particles] and [ripples] are not among them: [startRound] leaves them
    as the previous round left them. *)
Theorem startRound_resets_the_game_globals (rw rh perf : Q) (p1 p2 : Page) :
  difficultySettings (currentDifficulty (game p1)) <> None ->
  currentDifficulty (game p1) = currentDifficulty (game p2) ->
  intervals (game p1) = intervals (game p2) ->
  game (startRoundPage rw rh perf p1) = game (startRoundPage rw rh perf p2)
  /\ particles (startRoundPage rw rh perf p1) = particles p1
  /\ ripples (startRoundPage rw rh perf p1) = ripples p1
  /\ particles (startRoundPage rw rh perf p2) = particles p2
  /\ ripples (startRoundPage rw rh perf p2) = ripples p2.
Proof.
  intros Hk Hc Hi. split; [|repeat split].
  cbn [game startRoundPage]. now apply startRound_same_result.
Qed.

Lemma startRound_resets_the_game_globals_witness :
  let p1 :=
    mkPage (midRound [olderDrop; newerDrop] 40 1 36)
      [newParticle 100 100 true 0.5 0.5 0.5] (popEffect 100 100 4000) in
  let p2 := mkPage (midRound [] 0 3 0) [] [] in
  game (startRoundPage 720 420 9000 p1) = game (startRoundPage 720 420 9000 p2)
  /\ List.length (particles (startRoundPage 720 420 9000 p1)) = 1%nat
  /\ List.length (ripples (startRoundPage 720 420 9000 p1)) = 3%nat.
Proof.
  intros p1 p2.
  destruct (startRound_resets_the_game_globals 720 420 9000 p1 p2)
    as (Hg & Hp & Hr & _); [discriminate|reflexivity|reflexivity|].
  split; [exact Hg|]. rewrite Hp, Hr. split; reflexivity.
Defined.
